(** * collectionstats.py: per-collection MongoDB profiling statistics

    A shallow embedding of [src/collectionstats.py]:

    - [MAP] and [REDUCE], the two JavaScript functions handed to MongoDB's
      map/reduce, together with the JavaScript regular expression that
      [MAP] applies to [this.info];
    - [parse_results], the Python loop that folds the map/reduce output
      into a dict of dicts;
    - [print_table], the Python loop that normalises the counts by the
      profiling interval and fills the table.

    The connection to the server, the profiling level, the sleep and the
    drawing of the table are outside the embedding; of map/reduce itself
    only the contract is stated ([map_reduce_output]).

    JavaScript strings are sequences of UTF-16 code units, modelled as
    [list N].  Counts are integers ([Z]): the JavaScript side holds them in
    doubles, which are exact on integers below 2^53.  Rates are IEEE-754
    doubles ([PrimFloat.float]), as Python floats are.  Python dicts are
    [gmap]s; their iteration order, which Python leaves open, is that of
    [map_to_list]. *)

From Stdlib Require Import ZArith NArith List String Ascii Floats.
From stdpp Require Import gmap list.

Local Open Scope Z_scope.
Set Warnings "-clear-no-such-hyp".

(** ** Strings *)

Definition jsstring := list N.

Definition chr (a : ascii) : N := N_of_ascii a.

(** The string literal [s], as code units. *)
Definition lit (s : string) : jsstring := map N_of_ascii (list_ascii_of_string s).
Arguments lit s%_string.

(** ** JavaScript regular expressions (the fragment [MAP] uses) *)

Module Regex.

(** Members of a character class. *)
Inductive atom :=
| AWord              (* \w *)
| ASpace             (* \s *)
| AChar (c : N).     (* a literal or escaped character *)

Inductive regex :=
| Bol                              (* ^ *)
| Class (l : list atom)            (* \w, \s, \., [...] *)
| Cat (r1 r2 : regex)              (* r1 r2 *)
| Plus (r : regex)                 (* r+ , greedy *)
| Group (i : nat) (r : regex).     (* ( r ), the i-th capturing group *)

Definition in_range (lo hi c : N) : bool := ((lo <=? c) && (c <=? hi))%N.

(** \w is [A-Za-z0-9_]. *)
Definition is_word (c : N) : bool :=
  in_range (chr "a") (chr "z") c || in_range (chr "A") (chr "Z") c
  || in_range (chr "0") (chr "9") c || (c =? chr "_")%N.

(** \s is WhiteSpace or LineTerminator: TAB, LF, VT, FF, CR, SP, NBSP,
    U+1680, U+2000..U+200A, U+2028, U+2029, U+202F, U+205F, U+3000, BOM. *)
Definition is_space (c : N) : bool :=
  (in_range 9 13 c || (c =? 32) || (c =? 160) || (c =? 5760)
   || in_range 8192 8202 c || (c =? 8232) || (c =? 8233) || (c =? 8239)
   || (c =? 8287) || (c =? 12288) || (c =? 65279))%N.

Definition atom_matches (c : N) (a : atom) : bool :=
  match a with
  | AWord => is_word c
  | ASpace => is_space c
  | AChar c' => (c =? c')%N
  end.

Definition class_matches (l : list atom) (c : N) : bool :=
  existsb (atom_matches c) l.

(** A matcher state: the input still to be read and the captures so far
    (an absent group is JavaScript's [undefined]). *)
Record state := State { rest : jsstring; caps : gmap nat jsstring }.

Fixpoint groups (r : regex) : list nat :=
  match r with
  | Bol | Class _ => []
  | Cat r1 r2 => groups r1 ++ groups r2
  | Plus r => groups r
  | Group i r => i :: groups r
  end.

(** Captures of the groups [gs] are reset when an iteration starts. *)
Definition clear (gs : list nat) (x : state) : state :=
  State (rest x) (foldr delete (caps x) gs).

Definition progress (x y : state) : bool :=
  negb (length (rest y) =? length (rest x))%nat.

(** Zero or more further iterations of [once] from [y], longest first
    (RepeatMatcher with min = 0 and no upper bound): an iteration that
    consumes nothing is rejected, and when no further iteration leads to
    a match the repetition stops at [y].  Every accepted iteration
    consumes a character, so [length (rest y)] iterations are enough. *)
Fixpoint repeat_greedy (fuel : nat) (once : state → list state) (y : state)
  : list state :=
  match fuel with
  | O => [y]
  | S fuel' =>
      (filter (λ y', progress y y' = true) (once y) ≫= repeat_greedy fuel' once)
      ++ [y]
  end.

(** [rmatch n r x]: all the ways [r] matches a prefix of [rest x], in the
    order in which a backtracking matcher tries them; [n] is the length
    of the whole input, so that the position of [x] is
    [n - length (rest x)]. *)
Fixpoint rmatch (n : nat) (r : regex) (x : state) : list state :=
  match r with
  | Bol => if (length (rest x) =? n)%nat then [x] else []
  | Class l =>
      match rest x with
      | c :: s => if class_matches l c then [State s (caps x)] else []
      | [] => []
      end
  | Cat r1 r2 => rmatch n r1 x ≫= rmatch n r2
  | Plus r =>
      let once := λ y, rmatch n r (clear (groups r) y) in
      once x ≫= λ y, repeat_greedy (length (rest y)) once y
  | Group i r =>
      (λ y, State (rest y)
              (<[i := take (length (rest x) - length (rest y)) (rest x)]> (caps y)))
      <$> rmatch n r x
  end.

(** [RegExp.prototype.exec] without flags: the match is attempted at
    index 0, 1, ... up to the end of the input, and the first success
    gives the array [whole; group 1; ...; group ngroups]. *)
Fixpoint exec_from (r : regex) (ngroups n : nat) (s : jsstring)
  : option (list (option jsstring)) :=
  match rmatch n r (State s ∅) with
  | y :: _ =>
      Some (Some (take (length s - length (rest y)) s)
            :: ((λ i, caps y !! i) <$> seq 1 ngroups))
  | [] =>
      match s with
      | [] => None
      | _ :: s' => exec_from r ngroups n s'
      end
  end.

Definition ngroups (r : regex) : nat := length (groups r).

(** [s.match(r)] for a regular expression without the g flag. *)
Definition js_match (s : jsstring) (r : regex) : option (list (option jsstring)) :=
  exec_from r (ngroups r) (length s) s.

End Regex.

Import Regex.

(** ** The map/reduce functions *)

(** The emitted key [{"collection": collection, "type": type}] and the
    emitted value [{"count": n}]. *)
Record key := Key { collection : jsstring; type : jsstring }.
Record mr_value := Value { count : Z }.

#[global] Instance key_eq_dec : EqDecision key.
Proof. solve_decision. Defined.
#[global] Instance mr_value_eq_dec : EqDecision mr_value.
Proof. solve_decision. Defined.

(** A document of [system.profile]; only [info] is read. *)
Record entry := Entry { info : jsstring }.

(** /^(\w+)+\s+([\w\-]+)\.([\w\-\.\$]+)/ *)
Definition MAP_regex : regex :=
  Cat Bol
 (Cat (Plus (Group 1 (Plus (Class [AWord]))))
 (Cat (Plus (Class [ASpace]))
 (Cat (Group 2 (Plus (Class [AWord; AChar (chr "-")])))
 (Cat (Class [AChar (chr ".")])
      (Group 3 (Plus (Class [AWord; AChar (chr "-"); AChar (chr "."); AChar (chr "$")]))))))).

(** [MAP]: the list of [emit] calls made for the document [this].  An
    element of [matches] is [None] for a group that took no part in the
    match ([undefined]); with [MAP_regex] there is none
    ([js_match_MAP_regex_groups]), so that the last but one branch is never
    taken. *)
Definition MAP (this : entry) : list (key * mr_value) :=
  let info := info this in
  match js_match info MAP_regex with
  | Some matches =>
      if (length matches =? 4)%nat then
        match matches !! 1%nat, matches !! 2%nat, matches !! 3%nat with
        | Some (Some type), Some (Some database), Some (Some collection) =>
            if bool_decide (collection ≠ lit "$cmd")
               && bool_decide (database ≠ lit "tmp")
               && bool_decide (database ≠ lit "system")
            then [(Key collection type, Value 1)]
            else []
        | _, _, _ => []
        end
      else []
  | None => []
  end.

(** [REDUCE]: the sum of the counts. *)
Definition REDUCE (k : key) (values : list mr_value) : mr_value :=
  Value (fold_left (λ c v, c + count v) values 0).

(** ** MongoDB's map/reduce

    [inline_map_reduce] belongs to the server and its driver.  Its contract:
    [map] runs once on every document of the collection; the output holds
    one document [{"_id": k, "value": v}] for every distinct emitted key
    [k]; a key with a single emitted value keeps it as it is, and the
    values of a key with several are combined by [reduce], which may be
    called more than once, on any part of the values in any order, earlier
    results of [reduce] among them. *)

Record mr_doc := Doc { _id : key; value : mr_value }.

#[global] Instance mr_doc_eq_dec : EqDecision mr_doc.
Proof. solve_decision. Defined.

Section MapReduce.
Context {A : Type}.
Variable map : A → list (key * mr_value).
Variable reduce : key → list mr_value → mr_value.

Definition emits (coll : list A) : list (key * mr_value) := coll ≫= map.

Definition values_of (k : key) (es : list (key * mr_value)) : list mr_value :=
  (filter (λ kv, kv.1 = k) es).*2.

(** [reduces k vs v]: the values [vs] emitted for [k] can be reduced to
    [v]. *)
Inductive reduces (k : key) : list mr_value → mr_value → Prop :=
| reduces_single v : reduces k [v] v
| reduces_batch vs batch others v :
    vs ≡ₚ batch ++ others →
    batch ≠ [] →
    reduces k (reduce k batch :: others) v →
    reduces k vs v.

(** [docs] is a possible output of the map/reduce over [coll]. *)
Record map_reduce_output (coll : list A) (docs : list mr_doc) : Prop := {
  mro_nodup : NoDup (_id <$> docs);
  mro_keys : ∀ k, k ∈ _id <$> docs ↔ k ∈ (emits coll).*1;
  mro_values : ∀ d, d ∈ docs →
               reduces (_id d) (values_of (_id d) (emits coll)) (value d)
}.

(** One such output: every emitted key once, with a single call of
    [reduce] when it has several values. *)
Definition inline_map_reduce (coll : list A) : list mr_doc :=
  let es := emits coll in
  (λ k, Doc k (match values_of k es with
               | [v] => v
               | vs => reduce k vs
               end)) <$> remove_dups es.*1.
End MapReduce.

(** ** parse_results *)

(** [dict.setdefault(k, d)], for its effect on the dict. *)
Definition setdefault `{Countable K} {V} (k : K) (d : V) (m : gmap K V) : gmap K V :=
  match m !! k with
  | Some _ => m
  | None => <[k := d]> m
  end.

(** One iteration of the loop of [parse_results]. *)
Definition parse_step (results : gmap jsstring (gmap jsstring Z)) (doc : mr_doc)
  : gmap jsstring (gmap jsstring Z) :=
  let collection := collection (_id doc) in
  let type := type (_id doc) in
  let value := count (value doc) in
  match results !! collection with
  | None => setdefault collection {[type := value]} results
  | Some inner =>
      match inner !! type with
      | None => <[collection := setdefault type value inner]> results
      | Some old => <[collection := <[type := old + value]> inner]> results
      end
  end.

Definition parse_results (mr_data : list mr_doc) : gmap jsstring (gmap jsstring Z) :=
  foldl parse_step ∅ mr_data.

(** The aggregation as the script runs it:
    [parse_results (db[PROFILE_COLLECTION].inline_map_reduce(MAP, REDUCE))]. *)
Definition Aggregate (entries : list entry) : gmap jsstring (gmap jsstring Z) :=
  parse_results (inline_map_reduce MAP REDUCE entries).

(** The key under which [MAP] counts an entry, if it counts it. *)
Definition ExtractKey (e : entry) : option (jsstring * jsstring) :=
  match MAP e with
  | (k, _) :: _ => Some (collection k, type k)
  | [] => None
  end.

(** ** Python numbers and exceptions *)

Inductive exn := KeyError | OverflowError | ZeroDivisionError.

Inductive result (A : Type) :=
| Ok (a : A)
| Raise (e : exn).
Arguments Ok {A} a.
Arguments Raise {A} e.

(** A statement that raises ends the block: [x ← r; k] runs [k] only when
    [r] returned. *)
#[global] Instance result_bind : MBind result := λ A B f r,
  match r with
  | Ok a => f a
  | Raise e => Raise e
  end.

(** [for x in l: s = f(s, x)], stopping at the first exception. *)
Fixpoint for_each {A S} (f : S → A → result S) (l : list A) (s : S) : result S :=
  match l with
  | [] => Ok s
  | a :: l' => s' ← f s a; for_each f l' s'
  end.

(** The double nearest to [z], ties to even. *)
Definition float_of_Z (z : Z) : float :=
  SF2Prim (binary_normalize prec emax z 0 false).

(** [float(z)] for an int: OverflowError when the nearest double is not
    finite. *)
Definition py_float (z : Z) : result float :=
  let f := float_of_Z z in
  if is_infinity f then Raise OverflowError else Ok f.

(** [x / norm] for an int [x] and a float [norm]: [x] is converted first,
    then a zero divisor is refused. *)
Definition py_div (x : Z) (norm : float) : result float :=
  a ← py_float x;
  if (norm =? 0)%float then Raise ZeroDivisionError else Ok (a / norm)%float.

(** [v[k]] *)
Definition py_getitem (v : gmap jsstring Z) (k : jsstring) : result Z :=
  match v !! k with
  | Some x => Ok x
  | None => Raise KeyError
  end.

(** ** print_table *)

(** A table cell is a string or a number. *)
Inductive cell :=
| CStr (s : jsstring)
| CNum (f : float).

(** What [Texttable] is given: the header and the rows added so far. *)
Record Texttable := Table { header : list jsstring; rows : list (list cell) }.

Definition add_row (table : Texttable) (row : list cell) : Texttable :=
  Table (header table) (rows table ++ [row]).

(** The body of the loop of [print_table]. *)
Definition print_table_row (norm : float) (table : Texttable)
    (item : jsstring * gmap jsstring Z) : result Texttable :=
  let '(col, v) := item in
  let v := setdefault (lit "query") 0 v in
  let v := setdefault (lit "insert") 0 v in
  let v := setdefault (lit "getmore") 0 v in
  let v := setdefault (lit "update") 0 v in
  let v := setdefault (lit "remove") 0 v in
  query ← (x ← py_getitem v (lit "query"); py_div x norm);
  insert ← (x ← py_getitem v (lit "insert"); py_div x norm);
  getmore ← (x ← py_getitem v (lit "getmore"); py_div x norm);
  update ← (x ← py_getitem v (lit "update"); py_div x norm);
  remove ← (x ← py_getitem v (lit "remove"); py_div x norm);
  Ok (add_row table [CStr col; CNum query; CNum insert; CNum getmore;
                     CNum update; CNum remove]).

(** [print_table data time_interval]: the table that is drawn and printed.
    The rows follow the iteration order of the dict, which Python leaves
    unspecified; here it is the order of [map_to_list]. *)
Definition print_table (data : list mr_doc) (time_interval : Z) : result Texttable :=
  let table :=
    Table [lit "collection"; lit "queries/sec"; lit "inserts/sec";
           lit "getmores/sec"; lit "updates/sec"; lit "removes/sec"] [] in
  norm ← py_float time_interval;
  for_each (print_table_row norm) (map_to_list (parse_results data)) table.

(** ** The specification's ToRates

    Written from the specification, to be compared with [print_table]:
    for every collection, and for each of the five canonical operation
    types, [rate = count.get(opType, 0) / intervalSeconds]. *)

Definition canonical_types : list jsstring :=
  [lit "query"; lit "insert"; lit "getmore"; lit "update"; lit "remove"].

Definition rate (norm : float) (count : gmap jsstring Z) (opType : jsstring) : float :=
  PrimFloat.div (float_of_Z (default 0 (count !! opType))) norm.

(** The row of a collection: its name, then its five rates. *)
Definition ToRates_row (norm : float) (item : jsstring * gmap jsstring Z) : list cell :=
  CStr item.1 :: (CNum ∘ rate norm item.2 <$> canonical_types).

Definition table_header : list jsstring :=
  [lit "collection"; lit "queries/sec"; lit "inserts/sec";
   lit "getmores/sec"; lit "updates/sec"; lit "removes/sec"].

(** ** Notions used in the statements *)

(** What [MAP] reads off [info]: the verb, the database and the
    collection. *)
Definition parsed (info : jsstring) : option (jsstring * jsstring * jsstring) :=
  match js_match info MAP_regex with
  | Some [_; Some type; Some database; Some collection] =>
      Some (type, database, collection)
  | _ => None
  end.

(** [extends name x]: [x] contains [name] and more. *)
Definition extends (name x : jsstring) : Prop :=
  x ≠ name ∧ ∃ p q, x = p ++ name ++ q.

(** The sum of a list of integers. *)
Definition Zsum (l : list Z) : Z := foldr Z.add 0 l.

(** The count that [counts] holds for a collection and a type. *)
Definition lookup2 (counts : gmap jsstring (gmap jsstring Z))
    (c t : jsstring) : option Z :=
  counts !! c ≫= λ inner, inner !! t.

(** The sum of the values that [docs] holds for the key [k]. *)
Definition total (k : key) (docs : list mr_doc) : Z :=
  Zsum (count ∘ value <$> filter (λ d, _id d = k) docs).

(** No collection of [counts] has an empty dict. *)
Definition inner_nonempty (counts : gmap jsstring (gmap jsstring Z)) : Prop :=
  map_Forall (λ _ inner, inner ≠ ∅) counts.

(** The number of entries that [MAP] counts under a collection and a
    type. *)
Definition occurrences (entries : list entry) (c t : jsstring) : Z :=
  Z.of_nat (length (filter (λ e, ExtractKey e = Some (c, t)) entries)).

(** Integers that a double holds exactly. *)
Definition fits_double (z : Z) : Prop := - 2 ^ 53 < z < 2 ^ 53.

(** Integers that [float] accepts: the nearest double is finite. *)
Definition float_finite (z : Z) : Prop := is_infinity (float_of_Z z) = false.

#[global] Instance float_finite_dec z : Decision (float_finite z).
Proof. unfold float_finite. apply _. Defined.

(** [float] accepts every count of the mapping. *)
Definition counts_fit (counts : gmap jsstring (gmap jsstring Z)) : Prop :=
  map_Forall (λ _ count, map_Forall (λ _ n, float_finite n) count) counts.

#[global] Instance counts_fit_dec counts : Decision (counts_fit counts).
Proof. unfold counts_fit. apply _. Defined.

(** [tbl] shows the number [r] in the row of the collection [col]. *)
Definition reported (tbl : Texttable) (col : jsstring) (r : float) : Prop :=
  ∃ row, row ∈ rows tbl ∧ row !! 0%nat = Some (CStr col) ∧ CNum r ∈ row.

(** A matcher only moves forward. *)
Definition forward (once : state → list state) : Prop :=
  ∀ x y, y ∈ once x → (length (rest y) ≤ length (rest x))%nat.

(** ** Notions used in the further properties *)

(** The length of the longest prefix of [s] whose characters are in [p]. *)
Fixpoint run (p : N → bool) (s : jsstring) : nat :=
  match s with
  | c :: s' => if p c then S (run p s') else 0%nat
  | [] => 0%nat
  end.

(** That prefix, and what follows it. *)
Definition span (p : N → bool) (s : jsstring) : jsstring * jsstring :=
  (take (run p s) s, drop (run p s) s).

(** [\w\-] and [\w\-\.\$] *)
Definition is_dbchar : N → bool := class_matches [AWord; AChar (chr "-")].
Definition is_collchar : N → bool :=
  class_matches [AWord; AChar (chr "-"); AChar (chr "."); AChar (chr "$")].

(** What follows the verb, read from left to right, every part as long as
    it can be: the spaces, the database, a dot, the collection; the result
    is the database, the collection and the text left over. *)
Definition scan_tail (s : jsstring) : option (jsstring * jsstring * jsstring) :=
  let '(spaces, s2) := span is_space s in
  let '(database, s3) := span is_dbchar s2 in
  match spaces, database, s3 with
  | _ :: _, _ :: _, c :: s4 =>
      let '(collection, s5) := span is_collchar s4 in
      match collection with
      | _ :: _ =>
          if (c =? chr ".")%N then Some (database, collection, s5) else None
      | [] => None
      end
  | _, _, _ => None
  end.

(** One pass over [info], to compare [MAP_regex] with: the verb, as long as
    it can be, then [scan_tail]. *)
Definition scan (info : jsstring) : option (jsstring * jsstring * jsstring) :=
  let '(type, s1) := span is_word info in
  match type with
  | _ :: _ => (λ '(database, collection, _), (type, database, collection))
              <$> scan_tail s1
  | [] => None
  end.

(** [m; m - 1; ...; 1] *)
Fixpoint down (m : nat) : list nat :=
  match m with
  | O => []
  | S m' => m :: down m'
  end.

(** The sum of the counts of a collection, and of all the collections. *)
Definition inner_total (inner : gmap jsstring Z) : Z :=
  map_fold (λ _ n acc, n + acc) 0 inner.

Definition grand_total (counts : gmap jsstring (gmap jsstring Z)) : Z :=
  map_fold (λ _ inner acc, inner_total inner + acc) 0 counts.

(** The documents that the map/reduce would hold without [REDUCE]: one
    for every [emit]. *)
Definition unreduced (entries : list entry) : list mr_doc :=
  (λ kv, Doc kv.1 kv.2) <$> emits MAP entries.

(** [info] is a verb, spaces, a database, a dot, a collection and a rest,
    each part non-empty but the rest, each made of its class of characters,
    and the collection not continued by the rest. *)
Definition namespace_shape (info t sp d c r : jsstring) : Prop :=
  info = t ++ sp ++ d ++ chr "." :: c ++ r ∧
  (t ≠ [] ∧ Forall (λ x, is_word x = true) t) ∧
  (sp ≠ [] ∧ Forall (λ x, is_space x = true) sp) ∧
  (d ≠ [] ∧ Forall (λ x, is_dbchar x = true) d) ∧
  (c ≠ [] ∧ Forall (λ x, is_collchar x = true) c) ∧
  run is_collchar r = 0%nat.

(** [MAP_regex] after [^], and its tails: after the verb, after the
    spaces, after the database. *)
Definition R3 : regex :=
  Cat (Class [AChar (chr ".")])
      (Group 3 (Plus (Class [AWord; AChar (chr "-"); AChar (chr "."); AChar (chr "$")]))).
Definition R2 : regex := Cat (Group 2 (Plus (Class [AWord; AChar (chr "-")]))) R3.
Definition R1 : regex := Cat (Plus (Class [ASpace])) R2.
Definition R0 : regex := Cat (Plus (Group 1 (Plus (Class [AWord])))) R1.

(** A row that [print_table] adds: the collection and five numbers. *)
Definition is_row_of (col : jsstring) (row : list cell) : Prop :=
  ∃ q i g u r, row = [CStr col; CNum q; CNum i; CNum g; CNum u; CNum r].

(** * Properties *)

(** ** The regular expression *)

Module RegexFacts.

Lemma repeat_greedy_forward fuel once y z :
  forward once → z ∈ repeat_greedy fuel once y →
  (length (rest z) ≤ length (rest y))%nat.
Proof.
  intros Hf. revert y. induction fuel as [|fuel IH]; simpl; intros y Hz.
  - apply list_elem_of_singleton in Hz. by subst.
  - apply elem_of_app in Hz as [Hz|Hz].
    + apply list_elem_of_bind in Hz as (y' & Hz & Hy').
      apply list_elem_of_filter in Hy' as [_ Hy'].
      apply Hf in Hy'. apply IH in Hz. lia.
    + apply list_elem_of_singleton in Hz. by subst.
Qed.

Lemma clear_rest gs x : rest (clear gs x) = rest x.
Proof. done. Qed.

Lemma rmatch_forward n r : forward (rmatch n r).
Proof.
  induction r as [|l|r1 IH1 r2 IH2|r IH|i r IH]; intros x y; simpl.
  - case_match; [|by intros ?%elem_of_nil].
    intros ->%list_elem_of_singleton. done.
  - destruct (rest x) as [|c s] eqn:Hx; [by intros ?%elem_of_nil|].
    case_match; [|by intros ?%elem_of_nil].
    intros ->%list_elem_of_singleton. simpl. lia.
  - intros (z & Hy & Hz)%list_elem_of_bind.
    apply IH1 in Hz. apply IH2 in Hy. lia.
  - intros (z & Hy & Hz)%list_elem_of_bind.
    apply IH in Hz. rewrite clear_rest in Hz.
    apply repeat_greedy_forward in Hy; [lia|].
    intros x' y' Hy'. apply IH in Hy'. by rewrite clear_rest in Hy'.
  - intros (z & -> & Hz)%list_elem_of_fmap. simpl. by apply IH.
Qed.

Lemma filter_progress_nil y (l : list state) :
  (∀ y', y' ∈ l → length (rest y') = length (rest y)) →
  filter (λ y', progress y y' = true) l = [].
Proof.
  induction l as [|z l IH]; intros Hl; [done|].
  rewrite filter_cons_False.
  - apply IH. intros y' Hy'. apply Hl. by right.
  - unfold progress. rewrite negb_true_iff, Nat.eqb_neq.
    intros Hne. apply Hne, Hl. by left.
Qed.

(** The fuel of [repeat_greedy] never runs out: more of it changes
    nothing. *)
Lemma repeat_greedy_fuel once fuel y :
  forward once → (length (rest y) ≤ fuel)%nat →
  repeat_greedy fuel once y = repeat_greedy (length (rest y)) once y.
Proof.
  intros Hf. revert y.
  induction (lt_wf fuel) as [fuel _ IH]. intros y Hle.
  destruct fuel as [|fuel].
  { by replace (length (rest y)) with 0%nat by lia. }
  destruct (length (rest y)) as [|m] eqn:Hm; simpl; f_equal.
  - assert (filter (λ y', progress y y' = true) (once y) = []) as ->; [|done].
    apply filter_progress_nil. intros y' Hy'. apply Hf in Hy'. lia.
  - apply Forall_bind_ext, Forall_forall. intros y' Hy'.
    apply list_elem_of_filter in Hy' as [Hp Hy'].
    apply Hf in Hy'. unfold progress in Hp.
    apply negb_true_iff, Nat.eqb_neq in Hp.
    rewrite (IH fuel), (IH m); [done|lia..].
Qed.

(** Captures: what a group sets, and what a regular expression leaves
    alone. *)
Lemma repeat_greedy_inv (P : state → Prop) fuel once y z :
  (∀ x y, y ∈ once x → P y) → P y → z ∈ repeat_greedy fuel once y → P z.
Proof.
  intros Honce. revert y. induction fuel as [|fuel IH]; simpl; intros y Hy Hz.
  - apply list_elem_of_singleton in Hz. by subst.
  - apply elem_of_app in Hz as [Hz|Hz].
    + apply list_elem_of_bind in Hz as (y' & Hz & Hy').
      apply list_elem_of_filter in Hy' as [_ Hy']. eauto.
    + apply list_elem_of_singleton in Hz. by subst.
Qed.

Lemma repeat_greedy_caps fuel once y z i :
  (∀ x y, y ∈ once x → caps y !! i = caps x !! i) →
  z ∈ repeat_greedy fuel once y → caps z !! i = caps y !! i.
Proof.
  intros Honce. revert y. induction fuel as [|fuel IH]; simpl; intros y Hz.
  - apply list_elem_of_singleton in Hz. by subst.
  - apply elem_of_app in Hz as [Hz|Hz].
    + apply list_elem_of_bind in Hz as (y' & Hz & Hy').
      apply list_elem_of_filter in Hy' as [_ Hy'].
      rewrite (IH _ Hz). eauto.
    + apply list_elem_of_singleton in Hz. by subst.
Qed.

Lemma clear_caps_other gs x i : i ∉ gs → caps (clear gs x) !! i = caps x !! i.
Proof.
  unfold clear. simpl. induction gs as [|g gs IH]; simpl; [done|].
  intros [Hne Hi]%not_elem_of_cons. rewrite lookup_delete_ne by done. auto.
Qed.

Lemma rmatch_caps_other n r x y i :
  i ∉ groups r → y ∈ rmatch n r x → caps y !! i = caps x !! i.
Proof.
  revert x y.
  induction r as [|l|r1 IH1 r2 IH2|r IH|j r IH]; intros x y Hi; simpl in *.
  - case_match; [|by intros ?%elem_of_nil].
    by intros ->%list_elem_of_singleton.
  - destruct (rest x) as [|c s]; [by intros ?%elem_of_nil|].
    case_match; [|by intros ?%elem_of_nil].
    by intros ->%list_elem_of_singleton.
  - apply not_elem_of_app in Hi as [Hi1 Hi2].
    intros (z & Hy & Hz)%list_elem_of_bind.
    rewrite (IH2 _ _ Hi2 Hy). auto.
  - assert (∀ x y, y ∈ rmatch n r (clear (groups r) x) →
                   caps y !! i = caps x !! i) as Honce.
    { intros x' y' Hy'. rewrite (IH _ _ Hi Hy'). by apply clear_caps_other. }
    intros (z & Hy & Hz)%list_elem_of_bind.
    rewrite (repeat_greedy_caps _ _ _ _ _ Honce Hy). auto.
  - apply not_elem_of_cons in Hi as [Hne Hi].
    intros (z & -> & Hz)%list_elem_of_fmap. simpl.
    rewrite lookup_insert_ne by done. auto.
Qed.

Lemma rmatch_Group_caps n i r x y :
  y ∈ rmatch n (Group i r) x → is_Some (caps y !! i).
Proof.
  simpl. intros (z & -> & Hz)%list_elem_of_fmap. simpl.
  rewrite lookup_insert_eq. eauto.
Qed.

Lemma rmatch_Plus_Group_caps n i r x y :
  y ∈ rmatch n (Plus (Group i r)) x → is_Some (caps y !! i).
Proof.
  cbn [rmatch]. intros (z & Hy & Hz)%list_elem_of_bind.
  eapply (repeat_greedy_inv (λ y, is_Some (caps y !! i))); [| |exact Hy].
  - intros x' y' Hy'. eapply rmatch_Group_caps, Hy'.
  - eapply rmatch_Group_caps, Hz.
Qed.

Lemma elem_of_rmatch_Cat n r1 r2 x y :
  y ∈ rmatch n (Cat r1 r2) x ↔ ∃ z, z ∈ rmatch n r1 x ∧ y ∈ rmatch n r2 z.
Proof. cbn [rmatch]. rewrite list_elem_of_bind. naive_solver. Qed.

End RegexFacts.

Import RegexFacts.

(** Whenever [MAP_regex] matches, its three groups are defined. *)
Lemma rmatch_MAP_regex_caps n x y :
  y ∈ rmatch n MAP_regex x →
  is_Some (caps y !! 1%nat) ∧ is_Some (caps y !! 2%nat) ∧ is_Some (caps y !! 3%nat).
Proof.
  unfold MAP_regex.
  intros (x1 & _ & (x2 & H1 & (x3 & H2 & (x4 & H3 & (x5 & H4 & H5)%elem_of_rmatch_Cat
    )%elem_of_rmatch_Cat)%elem_of_rmatch_Cat)%elem_of_rmatch_Cat)%elem_of_rmatch_Cat.
  pose proof (λ i Hi, rmatch_caps_other n _ _ _ i Hi H5) as E5.
  pose proof (λ i Hi, rmatch_caps_other n _ _ _ i Hi H4) as E4.
  pose proof (λ i Hi, rmatch_caps_other n _ _ _ i Hi H3) as E3.
  pose proof (λ i Hi, rmatch_caps_other n _ _ _ i Hi H2) as E2.
  cbn [groups app] in E2, E3, E4, E5.
  split_and!.
  - rewrite E5, E4, E3, E2 by set_solver.
    eapply rmatch_Plus_Group_caps, H1.
  - rewrite E5, E4 by set_solver.
    eapply rmatch_Group_caps, H3.
  - eapply rmatch_Group_caps, H5.
Qed.

Lemma exec_from_MAP_regex_groups n s matches :
  exec_from MAP_regex 3 n s = Some matches →
  ∃ whole type database collection,
    matches = [Some whole; Some type; Some database; Some collection].
Proof.
  induction s as [|c s IH]; cbn [exec_from];
    destruct (rmatch n MAP_regex (State _ ∅)) as [|y ys] eqn:Hy;
    try done; try (by apply IH).
  all: assert (y ∈ rmatch n MAP_regex (State _ ∅)) as Hin by (rewrite Hy; left).
  all: apply rmatch_MAP_regex_caps in Hin as ([t Ht] & [d Hd] & [k Hk]).
  all: intros [= <-]; simpl; eexists _, t, d, k; by repeat f_equal.
Qed.

Lemma js_match_MAP_regex_groups s matches :
  js_match s MAP_regex = Some matches →
  ∃ whole type database collection,
    matches = [Some whole; Some type; Some database; Some collection].
Proof. apply exec_from_MAP_regex_groups. Qed.

Lemma parsed_None info : parsed info = None ↔ js_match info MAP_regex = None.
Proof.
  unfold parsed. destruct (js_match info MAP_regex) as [m|] eqn:Hm; [|done].
  apply js_match_MAP_regex_groups in Hm as (w & t & d & c & ->). done.
Qed.

(** The matcher on a few strings: several spaces, a hyphen in the
    database, no dot after the database, no space after the verb. *)
Example parsed_spaces :
  parsed (lit "getmore  my-db.users.$index extra")
  = Some (lit "getmore", lit "my-db", lit "users.$index").
Proof. vm_compute. reflexivity. Qed.

Example parsed_no_dot : parsed (lit "query test") = None.
Proof. vm_compute. reflexivity. Qed.

Example parsed_no_space : parsed (lit "query.test.foo") = None.
Proof. vm_compute. reflexivity. Qed.

Example parsed_empty : parsed [] = None.
Proof. vm_compute. reflexivity. Qed.

(** [MAP] in terms of [parsed]: the three tests of the [if]. *)
Lemma MAP_parsed e :
  MAP e =
  match parsed (info e) with
  | Some (type, database, collection) =>
      if bool_decide (collection ≠ lit "$cmd")
         && bool_decide (database ≠ lit "tmp")
         && bool_decide (database ≠ lit "system")
      then [(Key collection type, Value 1)]
      else []
  | None => []
  end.
Proof.
  unfold MAP, parsed. destruct (js_match (info e) MAP_regex) as [m|] eqn:Hm; [|done].
  apply js_match_MAP_regex_groups in Hm as (w & t & d & c & ->). done.
Qed.

Lemma ExtractKey_parsed e :
  ExtractKey e =
  match parsed (info e) with
  | Some (type, database, collection) =>
      if bool_decide (collection ≠ lit "$cmd")
         && bool_decide (database ≠ lit "tmp")
         && bool_decide (database ≠ lit "system")
      then Some (collection, type)
      else None
  | None => None
  end.
Proof.
  unfold ExtractKey. rewrite MAP_parsed.
  destruct (parsed (info e)) as [[[t d] c]|]; [|done].
  by destruct (_ && _).
Qed.

(** [MAP] emits at most once, and always the value [{count: 1}]. *)
Lemma MAP_ExtractKey e :
  MAP e = match ExtractKey e with
          | Some (c, t) => [(Key c t, Value 1)]
          | None => []
          end.
Proof.
  rewrite ExtractKey_parsed, MAP_parsed.
  destruct (parsed (info e)) as [[[t d] c]|]; [|done].
  by destruct (_ && _).
Qed.

(** *** The pattern starts at the verb *)

Lemma is_space_not_word c : is_space c = true → is_word c = false.
Proof.
  unfold is_space, is_word, in_range.
  change (chr "a") with 97%N. change (chr "z") with 122%N.
  change (chr "A") with 65%N. change (chr "Z") with 90%N.
  change (chr "0") with 48%N. change (chr "9") with 57%N.
  change (chr "_") with 95%N.
  intros Hs. apply not_true_iff_false. revert Hs.
  rewrite !orb_true_iff, !andb_true_iff, !N.leb_le, !N.eqb_eq. lia.
Qed.

Lemma rmatch_MAP_regex_not_word n c s cs :
  is_word c = false → rmatch n MAP_regex (State (c :: s) cs) = [].
Proof.
  intros Hc. unfold MAP_regex. cbn [rmatch rest].
  case_match; [|done]. simpl. rewrite Hc. done.
Qed.

Lemma rmatch_MAP_regex_not_start n s cs :
  (length s < n)%nat → rmatch n MAP_regex (State s cs) = [].
Proof.
  intros Hlt. unfold MAP_regex. cbn [rmatch rest].
  by rewrite (proj2 (Nat.eqb_neq _ _)) by lia.
Qed.

Lemma exec_from_MAP_regex_not_start k n s :
  (length s < n)%nat → exec_from MAP_regex k n s = None.
Proof.
  induction s as [|c s IH]; intros Hlt; cbn [exec_from];
    rewrite rmatch_MAP_regex_not_start by done; [done|].
  apply IH. simpl in Hlt. lia.
Qed.

Lemma js_match_MAP_regex_not_word c s :
  is_word c = false → js_match (c :: s) MAP_regex = None.
Proof.
  intros Hc. unfold js_match. cbn [exec_from].
  rewrite rmatch_MAP_regex_not_word by done.
  apply exec_from_MAP_regex_not_start. simpl. lia.
Qed.

(** ** ExtractKey *)

(** C3, as stated, fails: with a leading space the entry is not counted,
    while the same text without it is counted under (foo.bar, query). *)
Lemma ExtractKey_leading_space_differs :
  ExtractKey (Entry (lit " query test.foo.bar ntoreturn:0")) = None ∧
  ExtractKey (Entry (lit "query test.foo.bar ntoreturn:0"))
  = Some (lit "foo.bar", lit "query").
Proof. split; vm_compute; reflexivity. Qed.

(** C3, amended: the pattern is anchored at the first character of [info],
    where the verb must start; an [info] that begins with a whitespace
    character is never counted, whatever follows. *)
Theorem ExtractKey_leading_whitespace (c : N) (s : jsstring) :
  is_space c = true → ExtractKey (Entry (c :: s)) = None.
Proof.
  intros Hc. rewrite ExtractKey_parsed. cbn [info].
  by rewrite (proj2 (parsed_None _))
    by by apply js_match_MAP_regex_not_word, is_space_not_word.
Qed.

Lemma ExtractKey_leading_whitespace_witness :
  is_space 9 = true ∧ ExtractKey (Entry (9%N :: lit "query test.foo")) = None.
Proof.
  split; [reflexivity|].
  apply (ExtractKey_leading_whitespace 9 (lit "query test.foo")). reflexivity.
Defined.

(** C4: an entry whose collection is [$cmd], or whose database is [tmp] or
    [system], is discarded: [MAP] emits nothing for it. *)
Theorem ExtractKey_excluded (e : entry) (t d c : jsstring) :
  parsed (info e) = Some (t, d, c) →
  c = lit "$cmd" ∨ d = lit "tmp" ∨ d = lit "system" →
  ExtractKey e = None ∧ MAP e = [].
Proof.
  intros Hp Hex. rewrite MAP_ExtractKey, ExtractKey_parsed, Hp.
  repeat case_bool_decide; simpl; try done. naive_solver.
Qed.

Lemma ExtractKey_excluded_witness :
  ExtractKey (Entry (lit "command test.$cmd count")) = None ∧
  MAP (Entry (lit "command test.$cmd count")) = [].
Proof.
  apply (ExtractKey_excluded (Entry (lit "command test.$cmd count"))
           (lit "command") (lit "test") (lit "$cmd")).
  - vm_compute. reflexivity.
  - left. reflexivity.
Defined.

Example ExtractKey_tmp_users : ExtractKey (Entry (lit "insert tmp.users")) = None.
Proof. vm_compute. reflexivity. Qed.

Example ExtractKey_system_indexes :
  ExtractKey (Entry (lit "update system.indexes")) = None.
Proof. vm_compute. reflexivity. Qed.

(** C6: the collection keeps its inner dot, the database is dropped and the
    text after the namespace is ignored. *)
Theorem ExtractKey_query_foo_bar :
  ExtractKey (Entry (lit "query test.foo.bar ntoreturn:0"))
  = Some (lit "foo.bar", lit "query").
Proof. vm_compute. reflexivity. Qed.

Lemma extends_length name x : extends name x → (length name < length x)%nat.
Proof.
  intros [Hne (p & q & ->)]. rewrite !length_app.
  destruct p as [|? p]; [|simpl; lia].
  destruct q as [|? q]; [|simpl; lia].
  by rewrite app_nil_r in Hne.
Qed.

Lemma extends_tmp_not_system d : extends (lit "tmp") d → d ≠ lit "system".
Proof.
  intros [_ (p & q & ->)] Heq.
  let s := eval vm_compute in (lit "system") in change (lit "system") with s in Heq.
  let s := eval vm_compute in (lit "tmp") in change (lit "tmp") with s in Heq.
  repeat (destruct p as [|? p]; simplify_eq/=).
Qed.

Lemma extends_system_not_tmp d : extends (lit "system") d → d ≠ lit "tmp".
Proof. intros Hlen%extends_length ->. vm_compute in Hlen. lia. Qed.

(** The entry is kept exactly when none of the three comparisons holds. *)
Lemma ExtractKey_kept e t d c :
  parsed (info e) = Some (t, d, c) →
  c ≠ lit "$cmd" → d ≠ lit "tmp" → d ≠ lit "system" →
  ExtractKey e = Some (c, t).
Proof.
  intros Hp Hc Ht Hs. rewrite ExtractKey_parsed, Hp.
  by rewrite !bool_decide_eq_true_2.
Qed.

(** C10, as stated, fails: in "query system2.$cmd" the database only
    extends [system], yet the entry is discarded, its collection being
    [$cmd]. *)
Lemma extended_name_still_discarded :
  ¬ (∀ e t d c,
       parsed (info e) = Some (t, d, c) →
       extends (lit "tmp") d ∨ extends (lit "system") d ∨ extends (lit "$cmd") c →
       ExtractKey e = Some (c, t)).
Proof.
  intros H.
  specialize (H (Entry (lit "query system2.$cmd"))
                (lit "query") (lit "system2") (lit "$cmd")).
  assert (ExtractKey (Entry (lit "query system2.$cmd")) = None) as Hnone
    by (vm_compute; reflexivity).
  rewrite H in Hnone; [discriminate|vm_compute; reflexivity|].
  right; left. split; [discriminate|].
  by exists [], (lit "2").
Qed.

(** C10, amended: the three filters compare whole strings, and each alone
    discards the entry.  So a database that only extends [tmp] or [system]
    is counted, under its collection and verb, when the collection is not
    [$cmd]; and a collection that only extends [$cmd] is counted when the
    database is neither [tmp] nor [system]. *)
Theorem ExtractKey_extended_name_kept (e : entry) (t d c : jsstring) :
  parsed (info e) = Some (t, d, c) →
  ((extends (lit "tmp") d ∨ extends (lit "system") d) ∧ c ≠ lit "$cmd")
  ∨ (extends (lit "$cmd") c ∧ d ≠ lit "tmp" ∧ d ≠ lit "system") →
  ExtractKey e = Some (c, t) ∧ MAP e = [(Key c t, Value 1)].
Proof.
  intros Hp Hex.
  assert (ExtractKey e = Some (c, t)) as Hk.
  { apply (ExtractKey_kept e t d c Hp).
    - destruct Hex as [[_ Hc]|[[Hc _] _]]; done.
    - destruct Hex as [[[Hd|Hd] _]|(_ & Hd & _)]; [by destruct Hd| |done].
      by apply extends_system_not_tmp.
    - destruct Hex as [[[Hd|Hd] _]|(_ & _ & Hd)]; [|by destruct Hd|done].
      by apply extends_tmp_not_system. }
  split; [done|]. by rewrite MAP_ExtractKey, Hk.
Qed.

Lemma ExtractKey_extended_name_kept_witness :
  ExtractKey (Entry (lit "query system2.foo")) = Some (lit "foo", lit "query") ∧
  MAP (Entry (lit "query system2.foo")) = [(Key (lit "foo") (lit "query"), Value 1)].
Proof.
  apply (ExtractKey_extended_name_kept (Entry (lit "query system2.foo"))
           (lit "query") (lit "system2") (lit "foo")).
  - vm_compute. reflexivity.
  - left. split; [|discriminate]. right. split; [discriminate|].
    exists [], (lit "2"). reflexivity.
Defined.

Example ExtractKey_tmp_cache :
  ExtractKey (Entry (lit "insert tmp-cache.users")) = Some (lit "users", lit "insert").
Proof. vm_compute. reflexivity. Qed.

Example ExtractKey_cmdX :
  ExtractKey (Entry (lit "query test.$cmdX")) = Some (lit "$cmdX", lit "query").
Proof. vm_compute. reflexivity. Qed.

Example ExtractKey_foo_cmd :
  ExtractKey (Entry (lit "query test.foo.$cmd")) = Some (lit "foo.$cmd", lit "query").
Proof. vm_compute. reflexivity. Qed.

(** ** Floats *)

Module FloatFacts.

Lemma digits2_pos_iter_xO p k :
  digits2_pos (Pos.iter xO p k) = (digits2_pos p + k)%positive.
Proof.
  induction k as [|k IH] using Pos.peano_ind.
  - simpl. lia.
  - rewrite Pos.iter_succ. simpl. rewrite IH. lia.
Qed.

Lemma digits2_pos_size p : digits2_pos p = Pos.size p.
Proof. induction p; simpl; congruence. Qed.

Lemma digits2_pos_bound p : Zpos p < 2 ^ 53 → Zpos (digits2_pos p) ≤ 53.
Proof.
  intros Hp. rewrite digits2_pos_size.
  assert (Z.log2 (Zpos p) < 53) by (apply Z.log2_lt_pow2; lia).
  destruct p; simpl in *; lia.
Qed.

Lemma fexp_53 e : -52 ≤ e → fexp prec emax (53 + e) - e = 0.
Proof. unfold fexp, SpecFloat.emin, prec, emax. lia. Qed.

(** An integer of at most 53 bits is rounded to itself: the mantissa is
    only shifted to 53 bits. *)
Lemma binary_round_small s p :
  Zpos (digits2_pos p) ≤ 53 →
  ∃ m e, binary_round prec emax s p 0 = S754_finite s m e
         ∧ bounded prec emax m e = true.
Proof.
  intros Hd. unfold binary_round.
  set (d := digits2_pos p) in *.
  assert (fexp prec emax (Zpos d + 0) = Zpos d - 53) as ->.
  { unfold fexp, SpecFloat.emin, prec, emax. lia. }
  assert (∃ mz, shl_align p 0 (Zpos d - 53) = (mz, Zpos d - 53)
                ∧ Zpos (digits2_pos mz) = 53) as (mz & -> & Hmz).
  { unfold shl_align. rewrite Z.sub_0_r.
    destruct (Zpos d - 53) as [|q|q] eqn:Hq; try lia.
    - exists p. split; [done|]. fold d. lia.
    - eexists. split; [reflexivity|]. rewrite digits2_pos_iter_xO. fold d. lia. }
  unfold binary_round_aux, shr_fexp. cbn [Zdigits2].
  rewrite Hmz, fexp_53 by lia.
  cbn [shr shr_record_of_loc loc_of_shr_record shr_m round_nearest_even Zdigits2].
  rewrite Hmz, fexp_53 by lia.
  cbn [shr shr_record_of_loc shr_m].
  assert ((Zpos d - 53 <=? emax - prec) = true) as Hle.
  { apply Z.leb_le. unfold emax, prec. lia. }
  rewrite Hle. exists mz, (Zpos d - 53). split; [done|].
  unfold bounded, canonical_mantissa. rewrite Hle, Hmz.
  rewrite andb_true_r. apply Z.eqb_eq.
  unfold fexp, SpecFloat.emin, prec, emax. lia.
Qed.

(** Below 2^53 the conversion is finite, and it is zero only for 0. *)
Lemma float_of_Z_fits z :
  fits_double z →
  is_infinity (float_of_Z z) = false ∧
  ((float_of_Z z =? 0)%float = true ↔ z = 0).
Proof.
  intros Hz. unfold fits_double in Hz. unfold float_of_Z.
  destruct z as [|p|p]; cbn [binary_normalize].
  - split; [reflexivity|]. by split.
  - destruct (binary_round_small false p) as (m & e & -> & Hb).
    { apply digits2_pos_bound. lia. }
    unfold is_infinity. rewrite !FloatAxioms.eqb_spec, abs_spec.
    rewrite Prim2SF_SF2Prim by done.
    split; [reflexivity|]. split; [discriminate|lia].
  - destruct (binary_round_small true p) as (m & e & -> & Hb).
    { apply digits2_pos_bound. lia. }
    unfold is_infinity. rewrite !FloatAxioms.eqb_spec, abs_spec.
    rewrite Prim2SF_SF2Prim by done.
    split; [reflexivity|]. split; [discriminate|lia].
Qed.

End FloatFacts.

Lemma fits_double_finite z : fits_double z → float_finite z.
Proof. by intros [Hfin _]%FloatFacts.float_of_Z_fits. Qed.

Lemma py_float_finite z : float_finite z → py_float z = Ok (float_of_Z z).
Proof. intros Hfin. unfold py_float. by rewrite Hfin. Qed.

Lemma float_of_Z_nonzero z :
  fits_double z → z ≠ 0 → (float_of_Z z =? 0)%float = false.
Proof.
  intros [_ Hz]%FloatFacts.float_of_Z_fits Hne.
  apply not_true_iff_false. by rewrite Hz.
Qed.

Lemma py_div_finite x norm :
  float_finite x → (norm =? 0)%float = false →
  py_div x norm = Ok (float_of_Z x / norm)%float.
Proof.
  intros Hx Hn. unfold py_div. rewrite (py_float_finite x Hx). simpl.
  by rewrite Hn.
Qed.

Lemma py_div_zero x : float_finite x → py_div x 0 = Raise ZeroDivisionError.
Proof. intros Hx. unfold py_div. by rewrite (py_float_finite x Hx). Qed.

Lemma float_finite_0 : float_finite 0.
Proof. reflexivity. Qed.

(** ** print_table *)

Lemma lookup_setdefault `{Countable K} {V} (k k' : K) (d : V) (m : gmap K V) :
  setdefault k d m !! k' =
  if decide (k = k') then Some (default d (m !! k)) else m !! k'.
Proof.
  unfold setdefault. destruct (m !! k) eqn:Hk; case_decide; subst;
    rewrite ?Hk, ?lookup_insert_eq, ?lookup_insert_ne; done.
Qed.

(** After the five [setdefault], a canonical type is read as
    [v.get(opType, 0)], and none of the five reads raises KeyError. *)
Lemma py_getitem_setdefault (v : gmap jsstring Z) opType :
  opType ∈ canonical_types →
  py_getitem
    (setdefault (lit "remove") 0
       (setdefault (lit "update") 0
          (setdefault (lit "getmore") 0
             (setdefault (lit "insert") 0
                (setdefault (lit "query") 0 v))))) opType
  = Ok (default 0 (v !! opType)).
Proof.
  intros Hop. unfold py_getitem. rewrite !lookup_setdefault.
  unfold canonical_types in Hop.
  repeat (apply elem_of_cons in Hop as [->|Hop]);
    [..|by apply elem_of_nil in Hop];
    repeat (case_decide; [try discriminate|]); try done.
  all: by destruct (v !! _).
Qed.

(** The body of the loop, with the dict reads resolved. *)
Lemma print_table_row_spec (norm : float) (table : Texttable) (col : jsstring) (v : gmap jsstring Z) :
  print_table_row norm table (col, v) =
  (query ← py_div (default 0 (v !! lit "query")) norm;
   insert ← py_div (default 0 (v !! lit "insert")) norm;
   getmore ← py_div (default 0 (v !! lit "getmore")) norm;
   update ← py_div (default 0 (v !! lit "update")) norm;
   remove ← py_div (default 0 (v !! lit "remove")) norm;
   Ok (add_row table [CStr col; CNum query; CNum insert; CNum getmore;
                      CNum update; CNum remove])).
Proof.
  unfold print_table_row.
  rewrite !py_getitem_setdefault by (unfold canonical_types; set_solver).
  done.
Qed.

Lemma default_finite (v : gmap jsstring Z) opType :
  map_Forall (λ _ n, float_finite n) v → float_finite (default 0 (v !! opType)).
Proof.
  intros Hv. destruct (v !! opType) as [n|] eqn:Hn; simpl.
  - by apply (Hv opType).
  - apply float_finite_0.
Qed.

Lemma print_table_row_finite (norm : float) (table : Texttable) (col : jsstring) (v : gmap jsstring Z) :
  (norm =? 0)%float = false →
  map_Forall (λ _ n, float_finite n) v →
  print_table_row norm table (col, v)
  = Ok (add_row table (ToRates_row norm (col, v))).
Proof.
  intros Hn Hv. rewrite print_table_row_spec.
  rewrite !py_div_finite by (done || by apply default_finite). done.
Qed.

Lemma for_each_print_table_row (norm : float) items (table : Texttable) :
  (norm =? 0)%float = false →
  Forall (λ item, map_Forall (λ _ n, float_finite n) item.2) items →
  for_each (print_table_row norm) items table
  = Ok (Table (header table) (rows table ++ (ToRates_row norm <$> items))).
Proof.
  intros Hn Hitems. revert table.
  induction Hitems as [|[col v] items Hv _ IH]; intros table; cbn [for_each].
  - rewrite app_nil_r. by destruct table.
  - rewrite print_table_row_finite by done. cbn [mbind result_bind].
    rewrite IH. unfold add_row. cbn [header rows fmap list_fmap].
    by rewrite <-app_assoc.
Qed.

Lemma counts_fit_items counts :
  counts_fit counts →
  Forall (λ item, map_Forall (λ _ n, float_finite n) item.2) (map_to_list counts).
Proof.
  intros Hc. apply Forall_forall. intros [col v] Hin.
  apply elem_of_map_to_list in Hin. by apply (Hc col).
Qed.

(** With a non-zero interval below 2^53 and counts that [float] accepts,
    [print_table] draws the rows of [ToRates_row], one for each collection. *)
Lemma print_table_fits data time_interval :
  fits_double time_interval → time_interval ≠ 0 →
  counts_fit (parse_results data) →
  print_table data time_interval
  = Ok (Table table_header
          (ToRates_row (float_of_Z time_interval)
           <$> map_to_list (parse_results data))).
Proof.
  intros Ht Hne Hc. unfold print_table.
  rewrite (py_float_finite _ (fits_double_finite _ Ht)). simpl.
  rewrite for_each_print_table_row;
    [done|by apply float_of_Z_nonzero|by apply counts_fit_items].
Qed.

(** With a zero interval the first division raises. *)
Lemma for_each_print_table_row_zero items (table : Texttable) :
  Forall (λ item, map_Forall (λ _ n, float_finite n) item.2) items →
  for_each (print_table_row 0%float) items table
  = match items with
    | [] => Ok table
    | _ :: _ => Raise ZeroDivisionError
    end.
Proof.
  intros Hitems. destruct Hitems as [|[col v] items Hv _]; cbn [for_each]; [done|].
  rewrite print_table_row_spec.
  by rewrite (py_div_zero (default 0 (v !! lit "query")))
    by by apply default_finite.
Qed.

(** C1, as stated, fails: neither a zero nor a negative interval is
    refused.  Without collections the interval 0 gives the empty table, and
    the interval -1 gives the rates divided by -1.0. *)
Lemma nonpositive_interval_not_refused :
  print_table [] 0 = Ok (Table table_header []) ∧
  print_table [Doc (Key (lit "foo") (lit "query")) (Value 10);
               Doc (Key (lit "foo") (lit "insert")) (Value 5)] (-1)
  = Ok (Table table_header
          [[CStr (lit "foo"); CNum (-10)%float; CNum (-5)%float;
            CNum neg_zero; CNum neg_zero; CNum neg_zero]]).
Proof. split; vm_compute; reflexivity. Qed.

(** C1, amended: [print_table] does not check the interval and has no
    error of its own for it.  With the interval 0 it draws the empty table
    when there is no collection, and otherwise fails with the
    ZeroDivisionError of its first division.  A negative interval is
    accepted: every rate is [count.get(opType, 0) / float(interval)].
    (For counts that [float] accepts.) *)
Theorem print_table_interval_unchecked (data : list mr_doc) :
  counts_fit (parse_results data) →
  print_table data 0
  = (if decide (parse_results data = ∅) then Ok (Table table_header [])
     else Raise ZeroDivisionError)
  ∧ ∀ time_interval,
      - 2 ^ 53 < time_interval < 0 →
      print_table data time_interval
      = Ok (Table table_header
              (ToRates_row (float_of_Z time_interval)
               <$> map_to_list (parse_results data))).
Proof.
  intros Hc. split.
  - unfold print_table. rewrite (py_float_finite 0 float_finite_0).
    change (float_of_Z 0) with 0%float. simpl.
    rewrite for_each_print_table_row_zero by by apply counts_fit_items.
    case_decide as Hm.
    + by rewrite Hm, map_to_list_empty.
    + destruct (map_to_list (parse_results data)) eqn:Hl; [|done].
      by apply map_to_list_empty_iff in Hl.
  - intros t Ht. apply print_table_fits; [unfold fits_double; lia|lia|done].
Qed.

Lemma print_table_interval_unchecked_witness :
  let data := [Doc (Key (lit "foo") (lit "query")) (Value 10)] in
  counts_fit (parse_results data) ∧
  (print_table data 0
   = (if decide (parse_results data = ∅) then Ok (Table table_header [])
      else Raise ZeroDivisionError)
   ∧ ∀ time_interval,
       - 2 ^ 53 < time_interval < 0 →
       print_table data time_interval
       = Ok (Table table_header
               (ToRates_row (float_of_Z time_interval)
                <$> map_to_list (parse_results data)))).
Proof.
  intros data.
  assert (counts_fit (parse_results data)) as Hfit.
  { apply (bool_decide_unpack _). vm_compute. exact I. }
  split; [exact Hfit|].
  exact (print_table_interval_unchecked data Hfit).
Defined.

Example print_table_zero_interval :
  print_table [Doc (Key (lit "foo") (lit "query")) (Value 10)] 0
  = Raise ZeroDivisionError.
Proof. vm_compute. reflexivity. Qed.

(** C2, as stated, fails: seven "command" operations on [foo] leave no
    trace in the table; the row of [foo] holds five zeros, and 7.0, their
    rate over one second, is not in it. *)
Lemma noncanonical_type_lost :
  let data := [Doc (Key (lit "foo") (lit "command")) (Value 7)] in
  parse_results data = {[ lit "foo" := {[ lit "command" := 7 ]} ]} ∧
  py_div 7 1 = Ok 7%float ∧
  ∃ tbl, print_table data 1 = Ok tbl ∧ ¬ reported tbl (lit "foo") 7.
Proof.
  intros data. split_and!; [vm_compute; reflexivity..|].
  eexists. split; [vm_compute; reflexivity|].
  intros (row & Hrow & _ & Hin). simpl in Hrow.
  apply list_elem_of_singleton in Hrow as ->.
  repeat (apply elem_of_cons in Hin as [Hin|Hin]; [try discriminate|]).
  all: try by apply elem_of_nil in Hin.
  all: injection Hin as Hin;
    apply (f_equal (λ f, PrimFloat.eqb f 0)) in Hin; vm_compute in Hin;
    discriminate.
Qed.

(** C2, amended: an operation type outside the canonical five is not
    reported.  The row of a collection is made of its name and the five
    canonical rates, and the count of any other type has no effect on
    it. *)
Theorem print_table_row_canonical_only
    (norm : float) (table : Texttable) (col : jsstring)
    (v : gmap jsstring Z) (opType : jsstring) (n : Z) :
  opType ∉ canonical_types →
  print_table_row norm table (col, <[opType := n]> v)
  = print_table_row norm table (col, v).
Proof.
  intros Hop. rewrite !print_table_row_spec.
  unfold canonical_types in Hop.
  rewrite !lookup_insert_ne by set_solver. done.
Qed.

Lemma print_table_row_canonical_only_witness :
  (lit "command" ∉ canonical_types) ∧
  (print_table_row 1 (Table table_header []) (lit "foo", <[lit "command" := 7]> ∅)
   = print_table_row 1 (Table table_header []) (lit "foo", ∅)).
Proof.
  assert (lit "command" ∉ canonical_types) as Hop.
  { apply (bool_decide_unpack _). vm_compute. exact I. }
  split; [exact Hop|].
  exact (print_table_row_canonical_only 1 (Table table_header []) (lit "foo")
           ∅ (lit "command") 7 Hop).
Defined.

(** C5: for every collection and each of the five canonical types the
    rate is [count.get(opType, 0) / intervalSeconds]; a type that was not
    seen counts 0.  (For an interval below 2^53 and counts that [float]
    accepts.)  In particular
    [{"foo": {"query": 10, "insert": 5}}] over 5 seconds gives
    2.0, 1.0, 0.0, 0.0, 0.0. *)
Theorem print_table_rates :
  (∀ (data : list mr_doc) (time_interval : Z),
     0 < time_interval < 2 ^ 53 →
     counts_fit (parse_results data) →
     ∃ tbl,
       print_table data time_interval = Ok tbl ∧
       header tbl = table_header ∧
       rows tbl = ToRates_row (float_of_Z time_interval)
                  <$> map_to_list (parse_results data) ∧
       ∀ col count,
         parse_results data !! col = Some count →
         let rate := rate (float_of_Z time_interval) count in
         [CStr col; CNum (rate (lit "query")); CNum (rate (lit "insert"));
          CNum (rate (lit "getmore")); CNum (rate (lit "update"));
          CNum (rate (lit "remove"))] ∈ rows tbl)
  ∧ print_table [Doc (Key (lit "foo") (lit "query")) (Value 10);
                 Doc (Key (lit "foo") (lit "insert")) (Value 5)] 5
    = Ok (Table table_header
            [[CStr (lit "foo"); CNum 2%float; CNum 1%float;
              CNum 0%float; CNum 0%float; CNum 0%float]]).
Proof.
  split; [|vm_compute; reflexivity].
  intros data t Ht Hfit. eexists. split_and!.
  - apply print_table_fits; [unfold fits_double; lia|lia|done].
  - done.
  - done.
  - intros col count Hcol rate. cbn [rows].
    apply list_elem_of_fmap. exists (col, count).
    split; [done|]. by apply elem_of_map_to_list.
Qed.

Lemma print_table_rates_witness :
  let data := [Doc (Key (lit "foo") (lit "query")) (Value 10);
               Doc (Key (lit "foo") (lit "insert")) (Value 5)] in
  0 < 5 < 2 ^ 53 ∧ counts_fit (parse_results data) ∧
  ∃ tbl,
    print_table data 5 = Ok tbl ∧
    header tbl = table_header ∧
    rows tbl = ToRates_row (float_of_Z 5) <$> map_to_list (parse_results data) ∧
    ∀ col count,
      parse_results data !! col = Some count →
      let rate := rate (float_of_Z 5) count in
      [CStr col; CNum (rate (lit "query")); CNum (rate (lit "insert"));
       CNum (rate (lit "getmore")); CNum (rate (lit "update"));
       CNum (rate (lit "remove"))] ∈ rows tbl.
Proof.
  intros data.
  assert (0 < 5 < 2 ^ 53) as Ht by (split; reflexivity).
  assert (counts_fit (parse_results data)) as Hfit.
  { apply (bool_decide_unpack _). vm_compute. exact I. }
  split; [exact Ht|]. split; [exact Hfit|].
  exact (proj1 print_table_rates data 5 Ht Hfit).
Defined.

(** ** parse_results *)

Module ParseFacts.

#[global] Instance Zsum_perm : Proper ((≡ₚ) ==> (=)) Zsum.
Proof. induction 1; simpl; lia. Qed.

Lemma Zsum_app l1 l2 : Zsum (l1 ++ l2) = Zsum l1 + Zsum l2.
Proof. induction l1; simpl; lia. Qed.

Lemma parse_step_lookup2 counts d c t :
  lookup2 (parse_step counts d) c t =
  if decide (Key c t = _id d)
  then Some (default 0 (lookup2 counts c t) + count (value d))
  else lookup2 counts c t.
Proof.
  destruct d as [[c' t'] [n]]. unfold parse_step, lookup2, setdefault. simpl.
  destruct (counts !! c') as [inner|] eqn:Hc'.
  - destruct (inner !! t') as [old|] eqn:Ht'.
    + destruct (decide (c = c')) as [->|Hc].
      * rewrite lookup_insert_eq, Hc'. simpl.
        destruct (decide (t = t')) as [->|Ht].
        -- rewrite lookup_insert_eq, Ht', decide_True by done. done.
        -- rewrite lookup_insert_ne, decide_False by congruence. done.
      * rewrite lookup_insert_ne, decide_False by congruence. done.
    + destruct (decide (c = c')) as [->|Hc].
      * rewrite lookup_insert_eq, Hc'. simpl.
        destruct (decide (t = t')) as [->|Ht].
        -- rewrite lookup_insert_eq, Ht', decide_True by done. done.
        -- rewrite lookup_insert_ne, decide_False by congruence. done.
      * rewrite lookup_insert_ne, decide_False by congruence. done.
  - destruct (decide (c = c')) as [->|Hc].
    + rewrite lookup_insert_eq, Hc'. simpl.
      destruct (decide (t = t')) as [->|Ht].
      * rewrite lookup_singleton_eq, decide_True by done. done.
      * rewrite lookup_singleton_ne, decide_False by congruence. done.
    + rewrite lookup_insert_ne, decide_False by congruence. done.
Qed.

Lemma parse_step_nonempty counts d :
  inner_nonempty counts → inner_nonempty (parse_step counts d).
Proof.
  intros Hm c inner. destruct d as [[c' t'] [n]].
  unfold parse_step, setdefault. simpl.
  destruct (counts !! c') as [inner'|] eqn:Hc'; [destruct (inner' !! t') eqn:Ht'|].
  all: rewrite lookup_insert; case_decide; [|by apply Hm].
  all: intros [= <-].
  - apply insert_non_empty.
  - apply insert_non_empty.
  - apply map_non_empty_singleton.
Qed.

Lemma foldl_parse_step_nonempty docs counts :
  inner_nonempty counts → inner_nonempty (foldl parse_step counts docs).
Proof.
  revert counts. induction docs as [|d docs IH]; intros counts Hm; simpl; [done|].
  by apply IH, parse_step_nonempty.
Qed.

Lemma total_cons k d docs :
  total k (d :: docs) =
  if decide (_id d = k) then count (value d) + total k docs else total k docs.
Proof. unfold total. rewrite filter_cons. by case_decide. Qed.

Lemma total_absent k docs : k ∉ _id <$> docs → total k docs = 0.
Proof.
  induction docs as [|d docs IH]; [done|].
  rewrite fmap_cons, not_elem_of_cons, total_cons. intros [Hne Hk].
  rewrite decide_False by done. auto.
Qed.

Lemma foldl_parse_step_lookup2 docs counts c t :
  lookup2 (foldl parse_step counts docs) c t =
  if decide (Key c t ∈ _id <$> docs)
  then Some (default 0 (lookup2 counts c t) + total (Key c t) docs)
  else lookup2 counts c t.
Proof.
  revert counts. induction docs as [|d docs IH]; intros counts; cbn [foldl].
  { case_decide as Hin; [|done]. by apply elem_of_nil in Hin. }
  rewrite IH, parse_step_lookup2, total_cons, fmap_cons.
  destruct (decide (Key c t = _id d)) as [Hd|Hd].
  - rewrite (decide_True (P := _ ∈ _ :: _)) by (rewrite Hd; left).
    rewrite (decide_True (P := _id d = _)) by done.
    case_decide as Hin; simpl; [f_equal; lia|].
    rewrite total_absent by done. f_equal. lia.
  - rewrite (decide_False (P := _id d = _)) by done.
    case_decide as Hin.
    + rewrite decide_True by by right. done.
    + rewrite decide_False; [done|]. rewrite not_elem_of_cons. done.
Qed.

End ParseFacts.

Import ParseFacts.

(** What [parse_results] holds for a collection and a type: the sum of the
    values of the documents with that key, when there is one. *)
Lemma parse_results_lookup2 docs c t :
  lookup2 (parse_results docs) c t =
  if decide (Key c t ∈ _id <$> docs) then Some (total (Key c t) docs) else None.
Proof.
  unfold parse_results. rewrite foldl_parse_step_lookup2.
  unfold lookup2. rewrite lookup_empty. simpl. by case_decide.
Qed.

Lemma parse_results_nonempty docs : inner_nonempty (parse_results docs).
Proof. apply foldl_parse_step_nonempty, map_Forall_empty. Qed.

(** Two dicts of non-empty dicts with the same counts are equal. *)
Lemma lookup2_ext (m1 m2 : gmap jsstring (gmap jsstring Z)) :
  inner_nonempty m1 → inner_nonempty m2 →
  (∀ c t, lookup2 m1 c t = lookup2 m2 c t) → m1 = m2.
Proof.
  intros H1 H2 Heq. apply map_eq. intros c.
  destruct (m1 !! c) as [v1|] eqn:Hc1, (m2 !! c) as [v2|] eqn:Hc2; [| | |done].
  - f_equal. apply map_eq. intros t.
    specialize (Heq c t). unfold lookup2 in Heq. by rewrite Hc1, Hc2 in Heq.
  - destruct (map_choose v1 (H1 c v1 Hc1)) as (t & n & Ht).
    specialize (Heq c t). unfold lookup2 in Heq.
    rewrite Hc1, Hc2 in Heq. simpl in Heq. congruence.
  - destruct (map_choose v2 (H2 c v2 Hc2)) as (t & n & Ht).
    specialize (Heq c t). unfold lookup2 in Heq.
    rewrite Hc1, Hc2 in Heq. simpl in Heq. congruence.
Qed.

(** [parse_results] does not depend on the order of the documents. *)
Lemma parse_results_perm docs1 docs2 :
  docs1 ≡ₚ docs2 → parse_results docs1 = parse_results docs2.
Proof.
  intros Hp. apply lookup2_ext; [apply parse_results_nonempty..|].
  intros c t. rewrite !parse_results_lookup2.
  assert (total (Key c t) docs1 = total (Key c t) docs2) as ->
    by (unfold total; by rewrite Hp).
  destruct (decide (Key c t ∈ _id <$> docs1)) as [Hin|Hin];
    rewrite Hp in Hin; [by rewrite decide_True|by rewrite decide_False].
Qed.

(** The collections of [parse_results] are those of the documents. *)
Lemma parse_results_dom docs c :
  c ∈ dom (parse_results docs) ↔ ∃ t, Key c t ∈ _id <$> docs.
Proof.
  rewrite elem_of_dom. split.
  - intros [inner Hc].
    destruct (map_choose inner (parse_results_nonempty docs c inner Hc))
      as (t & n & Ht).
    exists t. pose proof (parse_results_lookup2 docs c t) as Hl.
    unfold lookup2 in Hl. rewrite Hc in Hl. simpl in Hl. rewrite Ht in Hl.
    by case_decide.
  - intros [t Hin]. pose proof (parse_results_lookup2 docs c t) as Hl.
    rewrite decide_True in Hl by done. unfold lookup2 in Hl.
    destruct (parse_results docs !! c); [eauto|done].
Qed.

(** ** Map/reduce *)

Section MapReduceFacts.
Context {A : Type}.
Variable map : A → list (key * mr_value).

Lemma values_of_nonempty k (es : list (key * mr_value)) :
  k ∈ es.*1 → values_of k es ≠ [].
Proof.
  intros ([k' v] & -> & Hin)%list_elem_of_fmap Hnil.
  assert (v ∈ values_of (k', v).1 es) as Hv.
  { unfold values_of. apply list_elem_of_fmap. exists (k', v).
    split; [done|]. by apply list_elem_of_filter. }
  rewrite Hnil in Hv. by apply elem_of_nil in Hv.
Qed.

(** [inline_map_reduce] is a map/reduce output, whatever [reduce] is. *)
Lemma inline_map_reduce_output reduce coll :
  map_reduce_output map reduce coll (inline_map_reduce map reduce coll).
Proof.
  unfold inline_map_reduce.
  set (f := λ k, Doc k _).
  assert (∀ ks : list key, _id <$> (f <$> ks) = ks) as Hid.
  { intros ks. rewrite <-list_fmap_compose. apply list_fmap_id. }
  split.
  - rewrite Hid. apply NoDup_remove_dups.
  - intros k. rewrite Hid. apply elem_of_remove_dups.
  - intros d (k & -> & Hk)%list_elem_of_fmap.
    rewrite elem_of_remove_dups in Hk. unfold f. cbn [_id value].
    pose proof (values_of_nonempty k _ Hk) as Hne.
    destruct (values_of k (emits map coll)) as [|v [|v' vs]] eqn:Hvs; [done| |].
    + apply reduces_single.
    + eapply reduces_batch; [|done|apply reduces_single].
      by rewrite app_nil_r.
Qed.

Lemma fold_left_count values c :
  fold_left (λ c v, c + count v) values c = c + Zsum (count <$> values).
Proof.
  revert c. induction values as [|v values IH]; intros c; cbn [fold_left].
  - change (c = c + 0). lia.
  - rewrite IH, fmap_cons. change (Zsum (?x :: ?l)) with (x + Zsum l). lia.
Qed.

Lemma REDUCE_count k values : REDUCE k values = Value (Zsum (count <$> values)).
Proof. unfold REDUCE. by rewrite fold_left_count. Qed.

(** However [REDUCE] is applied, the result is the sum of the emitted
    counts. *)
Lemma reduces_REDUCE k vs v :
  reduces REDUCE k vs v → v = Value (Zsum (count <$> vs)).
Proof.
  induction 1 as [[n]|vs batch others v Hp Hne _ IH].
  - change (Value n = Value (n + 0)). f_equal. lia.
  - rewrite IH, Hp, fmap_cons, fmap_app, Zsum_app, REDUCE_count. done.
Qed.

Lemma map_reduce_output_value coll docs d :
  map_reduce_output map REDUCE coll docs → d ∈ docs →
  value d = Value (Zsum (count <$> values_of (_id d) (emits map coll))).
Proof. intros [_ _ Hv] Hd. by apply (reduces_REDUCE (_id d)), Hv. Qed.

Lemma map_reduce_output_incl coll1 coll2 docs1 docs2 d :
  coll1 ≡ₚ coll2 →
  map_reduce_output map REDUCE coll1 docs1 →
  map_reduce_output map REDUCE coll2 docs2 →
  d ∈ docs1 → d ∈ docs2.
Proof.
  intros Hp H1 H2 Hd.
  assert (emits map coll1 ≡ₚ emits map coll2) as Hes
    by (unfold emits; by rewrite Hp).
  pose proof (map_reduce_output_value _ _ _ H1 Hd) as Hv.
  assert (_id d ∈ _id <$> docs2) as (d' & Hid & Hd')%list_elem_of_fmap.
  { apply (mro_keys _ _ _ _ H2). rewrite <-Hes.
    apply (mro_keys _ _ _ _ H1). by apply list_elem_of_fmap_2. }
  pose proof (map_reduce_output_value _ _ _ H2 Hd') as Hv'.
  assert (d = d') as ->; [|done].
  destruct d as [k v], d' as [k' v']. simpl in *. subst k'.
  rewrite Hv, Hv'. unfold values_of. by rewrite Hes.
Qed.

(** The outputs for two orders of the collection hold the same
    documents. *)
Lemma map_reduce_output_perm coll1 coll2 docs1 docs2 :
  coll1 ≡ₚ coll2 →
  map_reduce_output map REDUCE coll1 docs1 →
  map_reduce_output map REDUCE coll2 docs2 →
  docs1 ≡ₚ docs2.
Proof.
  intros Hp H1 H2. apply NoDup_Permutation.
  - eapply NoDup_fmap_1, (mro_nodup _ _ _ _ H1).
  - eapply NoDup_fmap_1, (mro_nodup _ _ _ _ H2).
  - intros d. split.
    + by apply (map_reduce_output_incl coll1 coll2).
    + by apply (map_reduce_output_incl coll2 coll1).
Qed.

(** The order of the output is not part of the contract. *)
Lemma map_reduce_output_docs_perm reduce coll docs docs' :
  docs ≡ₚ docs' →
  map_reduce_output map reduce coll docs →
  map_reduce_output map reduce coll docs'.
Proof.
  intros Hp [Hnd Hk Hv]. split.
  - by rewrite <-Hp.
  - intros k. by rewrite <-Hp.
  - intros d Hd. apply Hv. by rewrite Hp.
Qed.

End MapReduceFacts.

(** ** Aggregate *)

Lemma elem_of_emits_MAP entries c t :
  Key c t ∈ (emits MAP entries).*1 ↔
  ∃ e, e ∈ entries ∧ ExtractKey e = Some (c, t).
Proof.
  unfold emits. rewrite list_elem_of_fmap. split.
  - intros ([k v] & Hk & (e & Hkv & He)%list_elem_of_bind). simpl in Hk. subst k.
    exists e. split; [done|]. rewrite MAP_ExtractKey in Hkv.
    destruct (ExtractKey e) as [[c' t']|]; [|by apply elem_of_nil in Hkv].
    apply list_elem_of_singleton in Hkv. congruence.
  - intros (e & He & Hk). exists (Key c t, Value 1). split; [done|].
    apply list_elem_of_bind. exists e. split; [|done].
    rewrite MAP_ExtractKey, Hk. by left.
Qed.

(** C7: the result does not depend on the order of the entries, whatever
    the order of the map/reduce output and however the values were
    reduced. *)
Theorem Aggregate_order_independent
    (entries1 entries2 : list entry) (docs1 docs2 : list mr_doc) :
  entries1 ≡ₚ entries2 →
  map_reduce_output MAP REDUCE entries1 docs1 →
  map_reduce_output MAP REDUCE entries2 docs2 →
  parse_results docs1 = parse_results docs2
  ∧ Aggregate entries1 = Aggregate entries2.
Proof.
  intros Hp H1 H2. split.
  - by apply parse_results_perm, (map_reduce_output_perm MAP entries1 entries2).
  - apply parse_results_perm, (map_reduce_output_perm MAP entries1 entries2);
      [done|apply inline_map_reduce_output..].
Qed.

(** C9: two runs on the same entries give equal results, the one that
    [Aggregate] computes. *)
Theorem Aggregate_deterministic (entries : list entry) (docs1 docs2 : list mr_doc) :
  map_reduce_output MAP REDUCE entries docs1 →
  map_reduce_output MAP REDUCE entries docs2 →
  parse_results docs1 = parse_results docs2
  ∧ parse_results docs1 = Aggregate entries.
Proof.
  intros H1 H2.
  split; apply parse_results_perm, (map_reduce_output_perm MAP entries entries);
    done || apply inline_map_reduce_output.
Qed.

Lemma parse_results_output_dom entries docs c :
  map_reduce_output MAP REDUCE entries docs →
  c ∈ dom (parse_results docs) ↔
  ∃ e t, e ∈ entries ∧ ExtractKey e = Some (c, t).
Proof.
  intros Hout. rewrite parse_results_dom. split.
  - intros [t Hk]. apply (mro_keys _ _ _ _ Hout), elem_of_emits_MAP in Hk.
    naive_solver.
  - intros (e & t & He). exists t.
    apply (mro_keys _ _ _ _ Hout), elem_of_emits_MAP. eauto.
Qed.

(** C8: without entries the result is empty, and in general its keys are
    the collections of the entries that [MAP] counts. *)
Theorem Aggregate_keys (entries : list entry) (docs : list mr_doc) :
  map_reduce_output MAP REDUCE entries docs →
  (entries = [] → parse_results docs = ∅ ∧ Aggregate entries = ∅) ∧
  ∀ c, c ∈ dom (parse_results docs) ↔
       ∃ e t, e ∈ entries ∧ ExtractKey e = Some (c, t).
Proof.
  intros Hout. split; [|intros c; by apply parse_results_output_dom].
  intros ->. split; [|reflexivity].
  apply dom_empty_iff_L, set_eq. intros c.
  rewrite (parse_results_output_dom [] docs c Hout).
  split; [|by intros ?%elem_of_empty].
  intros (e & _ & He%elem_of_nil & _). done.
Qed.

Lemma Aggregate_nil : Aggregate [] = ∅.
Proof. reflexivity. Qed.

Lemma Aggregate_dom entries c :
  c ∈ dom (Aggregate entries) ↔ ∃ e t, e ∈ entries ∧ ExtractKey e = Some (c, t).
Proof. apply parse_results_output_dom, inline_map_reduce_output. Qed.

Lemma values_of_app k (es1 es2 : list (key * mr_value)) :
  values_of k (es1 ++ es2) = values_of k es1 ++ values_of k es2.
Proof. unfold values_of. by rewrite filter_app, fmap_app. Qed.

Lemma values_of_emits_MAP entries c t :
  Zsum (count <$> values_of (Key c t) (emits MAP entries)) = occurrences entries c t.
Proof.
  unfold occurrences, emits.
  induction entries as [|e entries IH]; [done|].
  rewrite bind_cons, values_of_app, fmap_app, Zsum_app, IH, filter_cons.
  rewrite MAP_ExtractKey.
  destruct (ExtractKey e) as [[c' t']|] eqn:He.
  - unfold values_of. rewrite filter_cons, filter_nil. cbn [fst].
    destruct (decide (Key c' t' = Key c t)) as [[= -> ->]|Hne].
    + rewrite decide_True by done.
      change (Zsum _) with 1. cbn [length]. lia.
    + rewrite decide_False by congruence. done.
  - rewrite decide_False by done. done.
Qed.

Lemma total_nodup docs d :
  NoDup (_id <$> docs) → d ∈ docs → total (_id d) docs = count (value d).
Proof.
  induction docs as [|d0 docs IH]; [by intros _ ?%elem_of_nil|].
  rewrite fmap_cons, NoDup_cons, total_cons. intros [Hd0 Hnd] Hd.
  apply elem_of_cons in Hd as [->|Hd].
  - rewrite decide_True, total_absent by done. lia.
  - rewrite decide_False; [by apply IH|].
    intros Heq. apply Hd0. rewrite Heq. by apply list_elem_of_fmap_2.
Qed.

(** Every entry that [MAP] counts adds one to the count of its collection
    and type, and nothing else is in the result. *)
Lemma parse_results_output_count entries docs c t :
  map_reduce_output MAP REDUCE entries docs →
  lookup2 (parse_results docs) c t =
  if decide (occurrences entries c t = 0) then None
  else Some (occurrences entries c t).
Proof.
  intros Hout. rewrite parse_results_lookup2.
  destruct (decide (Key c t ∈ _id <$> docs)) as [Hin|Hin].
  - pose proof Hin as (e & He & Hk)%(mro_keys _ _ _ _ Hout)%elem_of_emits_MAP.
    apply list_elem_of_fmap in Hin as (d & Hid & Hd).
    rewrite Hid, (total_nodup _ _ (mro_nodup _ _ _ _ Hout) Hd).
    rewrite (map_reduce_output_value MAP _ _ _ Hout Hd). cbn [count].
    rewrite <-Hid, values_of_emits_MAP.
    rewrite decide_False; [done|]. unfold occurrences.
    assert (e ∈ filter (λ e, ExtractKey e = Some (c, t)) entries) as Hf
      by by apply list_elem_of_filter.
    destruct (filter _ entries); [by apply elem_of_nil in Hf|simpl; lia].
  - rewrite decide_True; [done|]. unfold occurrences.
    destruct (filter _ entries) as [|e l] eqn:Hf; [done|]. exfalso.
    assert (e ∈ filter (λ e, ExtractKey e = Some (c, t)) entries) as He
      by (rewrite Hf; left).
    apply list_elem_of_filter in He as [Hk He]. apply Hin.
    apply (mro_keys _ _ _ _ Hout), elem_of_emits_MAP. eauto.
Qed.

Lemma Aggregate_count entries c t :
  lookup2 (Aggregate entries) c t =
  if decide (occurrences entries c t = 0) then None
  else Some (occurrences entries c t).
Proof. apply parse_results_output_count, inline_map_reduce_output. Qed.

Lemma Aggregate_order_independent_witness :
  let entries1 := [Entry (lit "query test.foo"); Entry (lit "insert test.foo")] in
  let entries2 := [Entry (lit "insert test.foo"); Entry (lit "query test.foo")] in
  let docs1 := inline_map_reduce MAP REDUCE entries1 in
  let docs2 := reverse (inline_map_reduce MAP REDUCE entries2) in
  entries1 ≡ₚ entries2 ∧
  map_reduce_output MAP REDUCE entries1 docs1 ∧
  map_reduce_output MAP REDUCE entries2 docs2 ∧
  (parse_results docs1 = parse_results docs2
   ∧ Aggregate entries1 = Aggregate entries2).
Proof.
  intros entries1 entries2 docs1 docs2.
  assert (entries1 ≡ₚ entries2) as Hp by apply perm_swap.
  assert (map_reduce_output MAP REDUCE entries1 docs1) as H1
    by apply inline_map_reduce_output.
  assert (map_reduce_output MAP REDUCE entries2 docs2) as H2.
  { eapply map_reduce_output_docs_perm; [|apply inline_map_reduce_output].
    symmetry. apply reverse_Permutation. }
  split; [exact Hp|]. split; [exact H1|]. split; [exact H2|].
  exact (Aggregate_order_independent entries1 entries2 docs1 docs2 Hp H1 H2).
Defined.

Lemma Aggregate_deterministic_witness :
  let entries := [Entry (lit "query test.foo"); Entry (lit "insert test.bar");
                  Entry (lit "query test.foo")] in
  let docs1 := inline_map_reduce MAP REDUCE entries in
  let docs2 := reverse (inline_map_reduce MAP REDUCE entries) in
  map_reduce_output MAP REDUCE entries docs1 ∧
  map_reduce_output MAP REDUCE entries docs2 ∧
  (parse_results docs1 = parse_results docs2
   ∧ parse_results docs1 = Aggregate entries).
Proof.
  intros entries docs1 docs2.
  assert (map_reduce_output MAP REDUCE entries docs1) as H1
    by apply inline_map_reduce_output.
  assert (map_reduce_output MAP REDUCE entries docs2) as H2.
  { eapply map_reduce_output_docs_perm; [|apply inline_map_reduce_output].
    symmetry. apply reverse_Permutation. }
  split; [exact H1|]. split; [exact H2|].
  exact (Aggregate_deterministic entries docs1 docs2 H1 H2).
Defined.

Lemma Aggregate_keys_witness :
  let entries := [Entry (lit "query test.foo"); Entry (lit "insert tmp.users")] in
  let docs := inline_map_reduce MAP REDUCE entries in
  map_reduce_output MAP REDUCE entries docs ∧
  ((entries = [] → parse_results docs = ∅ ∧ Aggregate entries = ∅) ∧
   ∀ c, c ∈ dom (parse_results docs) ↔
        ∃ e t, e ∈ entries ∧ ExtractKey e = Some (c, t)).
Proof.
  intros entries docs.
  assert (map_reduce_output MAP REDUCE entries docs) as Hout
    by apply inline_map_reduce_output.
  split; [exact Hout|].
  exact (Aggregate_keys entries docs Hout).
Defined.

Example Aggregate_example :
  Aggregate [Entry (lit "query test.foo.bar ntoreturn:0");
             Entry (lit "insert test.foo");
             Entry (lit "query test.foo.bar");
             Entry (lit "insert tmp.users");
             Entry (lit "   ");
             Entry (lit "query prod.foo")]
  = {[ lit "foo.bar" := {[ lit "query" := 2 ]};
       lit "foo" := {[ lit "insert" := 1; lit "query" := 1 ]} ]}.
Proof. vm_compute. reflexivity. Qed.

(** * Further properties *)

(** ** The regular expression as a scanner *)

Module ScanFacts.

Lemma run_le p s : (run p s ≤ length s)%nat.
Proof. induction s as [|c s IH]; simpl; [lia|]. destruct (p c); simpl; lia. Qed.

Lemma run_next p s k :
  (k < run p s)%nat → ∃ c s', drop k s = c :: s' ∧ p c = true.
Proof.
  revert k. induction s as [|c s IH]; simpl; intros k Hk; [lia|].
  destruct (p c) eqn:Hc; [|lia].
  destruct k as [|k]; simpl; [eauto|]. apply IH. lia.
Qed.

Lemma run_drop p s k :
  (k ≤ run p s)%nat → run p (drop k s) = (run p s - k)%nat.
Proof.
  revert k. induction s as [|c s IH]; simpl; intros k Hk.
  { by rewrite drop_nil. }
  destruct (p c) eqn:Hc.
  - destruct k as [|k]; simpl; [by rewrite Hc|]. apply IH. lia.
  - replace k with 0%nat by lia. simpl. by rewrite Hc.
Qed.

Lemma run_stop p s : run p (drop (run p s) s) = 0%nat.
Proof. rewrite run_drop by done. lia. Qed.

Lemma run_0_cons p c s : p c = false → run p (c :: s) = 0%nat.
Proof. simpl. by intros ->. Qed.

Lemma run_Forall p s : Forall (λ c, p c = true) (take (run p s) s).
Proof.
  induction s as [|c s IH]; simpl; [constructor|].
  destruct (p c) eqn:Hc; simpl; by constructor.
Qed.

Lemma run_app p a b :
  Forall (λ c, p c = true) a → run p (a ++ b) = (length a + run p b)%nat.
Proof. induction 1 as [|c a Hc _ IH]; simpl; [done|]. by rewrite Hc, IH. Qed.

Lemma down_S m : down (S m) = S <$> (down m ++ [0%nat]).
Proof.
  induction m as [|m IH]; [done|].
  change (down (S (S m))) with (S (S m) :: down (S m)).
  rewrite IH at 1. change (down (S m)) with (S m :: down m). done.
Qed.

Lemma down_bind_nil {B} (g : nat → list B) m :
  (∀ k, (1 ≤ k ≤ m)%nat → g k = []) → down m ≫= g = [].
Proof.
  induction m as [|m IH]; intros Hg; [done|].
  cbn [down]. rewrite bind_cons, Hg by lia.
  rewrite IH; [done|]. intros k Hk. apply Hg. lia.
Qed.

(** Only the longest run survives a continuation that fails on shorter
    ones. *)
Lemma down_bind_max {B} (g : nat → list B) m :
  (∀ k, (1 ≤ k < m)%nat → g k = []) →
  down m ≫= g = match m with O => [] | S _ => g m end.
Proof.
  destruct m as [|m]; intros Hg; [done|].
  cbn [down]. rewrite bind_cons, down_bind_nil; [by rewrite app_nil_r|].
  intros k Hk. apply Hg. lia.
Qed.

Lemma elem_of_down k m : k ∈ down m ↔ (1 ≤ k ≤ m)%nat.
Proof.
  induction m as [|m IH]; simpl.
  - rewrite elem_of_nil. lia.
  - rewrite elem_of_cons, IH. lia.
Qed.

(** The states that a class loop reaches, the longest match first. *)
Lemma repeat_greedy_class n l fuel s cs :
  (length s ≤ fuel)%nat →
  repeat_greedy fuel (λ y, rmatch n (Class l) (clear [] y)) (State s cs)
  = (λ k, State (drop k s) cs) <$> (down (run (class_matches l) s) ++ [0%nat]).
Proof.
  revert s. induction fuel as [|fuel IH]; intros s Hs.
  { destruct s; [done|simpl in Hs; lia]. }
  cbn [repeat_greedy]. destruct s as [|c s]; [done|].
  cbn [rmatch clear rest caps foldr run].
  destruct (class_matches l c) eqn:Hc; [|done].
  rewrite filter_cons_True.
  2:{ unfold progress. cbn [rest length]. apply negb_true_iff, Nat.eqb_neq. lia. }
  rewrite filter_nil, bind_singleton, IH by (simpl in Hs; lia).
  rewrite down_S, (fmap_app _ (S <$> _)), <-list_fmap_compose. done.
Qed.

Lemma rmatch_Plus n r x :
  rmatch n (Plus r) x
  = rmatch n r (clear (groups r) x)
    ≫= λ y, repeat_greedy (length (rest y))
              (λ y, rmatch n r (clear (groups r) y)) y.
Proof. done. Qed.

Lemma rmatch_Class n l s cs :
  rmatch n (Class l) (clear [] (State s cs))
  = match s with
    | c :: s' => if class_matches l c then [State s' cs] else []
    | [] => []
    end.
Proof. done. Qed.

Lemma rmatch_plus_class n l s cs :
  rmatch n (Plus (Class l)) (State s cs)
  = (λ k, State (drop k s) cs) <$> down (run (class_matches l) s).
Proof.
  rewrite rmatch_Plus. change (groups (Class l)) with (@nil nat).
  rewrite rmatch_Class. destruct s as [|c s]; [done|].
  cbn [run]. destruct (class_matches l c) eqn:Hc; [|done].
  rewrite bind_singleton. cbn [rest].
  rewrite repeat_greedy_class by done.
  by rewrite down_S, <-list_fmap_compose.
Qed.

Lemma rmatch_group_plus_class n i l s cs :
  rmatch n (Group i (Plus (Class l))) (State s cs)
  = (λ k, State (drop k s) (<[i := take k s]> cs))
    <$> down (run (class_matches l) s).
Proof.
  cbn [rmatch]. fold (rmatch n (Plus (Class l)) (State s cs)).
  rewrite rmatch_plus_class, <-list_fmap_compose.
  apply Forall_fmap_ext, Forall_forall. intros k Hk%elem_of_down.
  pose proof (run_le (class_matches l) s).
  cbn [compose rest caps]. rewrite length_drop.
  by replace (length s - (length s - k))%nat with k by lia.
Qed.
Lemma rmatch_Cat n r1 r2 x :
  rmatch n (Cat r1 r2) x = rmatch n r1 x ≫= rmatch n r2.
Proof. done. Qed.

Lemma rmatch_Class_state n l s cs :
  rmatch n (Class l) (State s cs)
  = match s with
    | c :: s' => if class_matches l c then [State s' cs] else []
    | [] => []
    end.
Proof. done. Qed.

Lemma run_ext p q s : (∀ c, p c = q c) → run p s = run q s.
Proof. intros Hpq. induction s as [|c s IH]; simpl; [done|]. by rewrite Hpq, IH. Qed.

Lemma take_run_cons p s m :
  run p s = S m → ∃ c a, take (S m) s = c :: a.
Proof. destruct s as [|c s]; simpl; [done|]. eauto. Qed.

(** The character classes of the pattern exclude one another where the
    pattern needs it. *)
Lemma is_word_not_space c : is_word c = true → is_space c = false.
Proof.
  intros Hw. destruct (is_space c) eqn:Hs; [|done].
  apply is_space_not_word in Hs. congruence.
Qed.

Lemma is_space_not_dbchar c : is_space c = true → is_dbchar c = false.
Proof.
  intros Hs. unfold is_dbchar, class_matches. cbn [existsb atom_matches].
  rewrite (is_space_not_word c Hs). cbn [orb]. rewrite orb_false_r.
  revert Hs. unfold is_space, in_range. change (chr "-") with 45%N.
  destruct (c =? 45)%N eqn:Hc; [|done]. apply N.eqb_eq in Hc as ->. done.
Qed.

Lemma is_dbchar_not_dot c : is_dbchar c = true → (c =? chr ".")%N = false.
Proof.
  destruct (c =? chr ".")%N eqn:Hc; [|done].
  apply N.eqb_eq in Hc as ->. done.
Qed.

Lemma MAP_regex_R0 : MAP_regex = Cat Bol R0.
Proof. done. Qed.

Lemma rmatch_R3 n s cs :
  rmatch n R3 (State s cs)
  = match s with
    | c :: s' =>
        if (c =? chr ".")%N
        then (λ k, State (drop k s') (<[3%nat := take k s']> cs))
             <$> down (run is_collchar s')
        else []
    | [] => []
    end.
Proof.
  unfold R3. rewrite rmatch_Cat, rmatch_Class_state.
  destruct s as [|c s]; [done|].
  cbn [class_matches existsb atom_matches]. rewrite orb_false_r.
  destruct (c =? chr ".")%N; [|done].
  by rewrite bind_singleton, rmatch_group_plus_class.
Qed.

Lemma rmatch_R2 n s cs :
  rmatch n R2 (State s cs)
  = match run is_dbchar s with
    | O => []
    | S _ as m => rmatch n R3 (State (drop m s) (<[2%nat := take m s]> cs))
    end.
Proof.
  unfold R2. rewrite rmatch_Cat, rmatch_group_plus_class, list_fmap_bind.
  fold R3. fold is_dbchar. rewrite down_bind_max; [by destruct (run is_dbchar s)|].
  intros k Hk. cbn [compose].
  destruct (run_next is_dbchar s k) as (c & s' & -> & Hc); [lia|].
  by rewrite rmatch_R3, (is_dbchar_not_dot c Hc).
Qed.

Lemma rmatch_R1 n s cs :
  rmatch n R1 (State s cs)
  = match run is_space s with
    | O => []
    | S _ as m => rmatch n R2 (State (drop m s) cs)
    end.
Proof.
  unfold R1. rewrite rmatch_Cat, rmatch_plus_class, list_fmap_bind.
  fold R2.
  rewrite (run_ext (class_matches [ASpace]) is_space)
    by (intros c; cbn; apply orb_false_r).
  rewrite down_bind_max; [by destruct (run is_space s)|].
  intros k Hk. cbn [compose].
  destruct (run_next is_space s k) as (c & s' & -> & Hc); [lia|].
  by rewrite rmatch_R2, (run_0_cons _ _ _ (is_space_not_dbchar c Hc)).
Qed.

(** What follows the verb: the first match, if there is one. *)
Lemma rmatch_R1_head n s cs :
  head (rmatch n R1 (State s cs))
  = (λ '(d, c, r), State r (<[3%nat := c]> (<[2%nat := d]> cs))) <$> scan_tail s.
Proof.
  rewrite rmatch_R1. unfold scan_tail, span.
  destruct (run is_space s) as [|m1] eqn:Hm1; [by cbn|].
  destruct (take_run_cons _ _ _ Hm1) as (c1 & a1 & ->).
  set (s2 := drop (S m1) s). rewrite rmatch_R2.
  destruct (run is_dbchar s2) as [|m2] eqn:Hm2; [by cbn|].
  destruct (take_run_cons _ _ _ Hm2) as (c2 & a2 & Ha2). rewrite Ha2.
  rewrite rmatch_R3.
  destruct (drop (S m2) s2) as [|c s4]; [done|].
  destruct (run is_collchar s4) as [|m3] eqn:Hm3.
  { cbn [take]. by destruct (c =? chr ".")%N. }
  destruct (take_run_cons _ _ _ Hm3) as (c3 & a3 & Ha3).
  destruct (c =? chr ".")%N; [|by rewrite Ha3].
  cbn [down fmap list_fmap head]. by rewrite Ha2, Ha3.
Qed.

Lemma list_bind_assoc {X Y W} (f : X → list Y) (g : Y → list W) (l : list X) :
  (l ≫= f) ≫= g = l ≫= λ x, f x ≫= g.
Proof.
  induction l as [|x l IH]; [done|].
  by rewrite !bind_cons, bind_app, IH.
Qed.

Lemma list_bind_nil {X Y} (f : X → list Y) (l : list X) :
  (∀ x, x ∈ l → f x = []) → l ≫= f = [].
Proof.
  induction l as [|x l IH]; intros Hf; [done|].
  rewrite bind_cons, Hf by (by left). rewrite IH; [done|].
  intros y Hy. apply Hf. by right.
Qed.

Lemma repeat_greedy_once_nil fuel once y :
  once y = [] → repeat_greedy fuel once y = [y].
Proof. intros Hy. destruct fuel; [done|]. cbn [repeat_greedy]. by rewrite Hy. Qed.

Lemma repeat_greedy_inv_from (P : state → Prop) fuel once y z :
  (∀ x y, P x → y ∈ once x → P y) → P y → z ∈ repeat_greedy fuel once y → P z.
Proof.
  intros Honce. revert y. induction fuel as [|fuel IH]; simpl; intros y Hy Hz.
  - apply list_elem_of_singleton in Hz. by subst.
  - apply elem_of_app in Hz as [Hz|Hz].
    + apply list_elem_of_bind in Hz as (y' & Hz & Hy').
      apply list_elem_of_filter in Hy' as [_ Hy']. eauto.
    + apply list_elem_of_singleton in Hz. by subst.
Qed.

Lemma head_None_nil {X} (l : list X) : head l = None ↔ l = [].
Proof. by destruct l. Qed.

(** The verb: of all the ways in which [(\w+)+] can match, the first to
    succeed takes the whole run of word characters in one iteration. *)
Lemma rmatch_R0_head n s cs :
  head (rmatch n R0 (State s cs))
  = match run is_word s with
    | O => None
    | S _ as m =>
        head (rmatch n R1 (State (drop m s)
                             (<[1%nat := take m s]> (delete 1%nat cs))))
    end.
Proof.
  unfold R0. rewrite rmatch_Cat, rmatch_Plus, list_bind_assoc. fold R1.
  change (groups (Group 1 (Plus (Class [AWord])))) with [1%nat].
  change (clear [1%nat] (State s cs)) with (State s (delete 1%nat cs)).
  rewrite rmatch_group_plus_class, list_fmap_bind.
  rewrite (run_ext (class_matches [AWord]) is_word)
    by (intros c; cbn; apply orb_false_r).
  set (once := λ y, rmatch n (Group 1 (Plus (Class [AWord]))) (clear [1%nat] y)).
  set (mk := λ k, State (drop k s) (<[1%nat := take k s]> (delete 1%nat cs))).
  assert (∀ s' cs', once (State s' cs')
            = (λ k, State (drop k s') (<[1%nat := take k s']> (delete 1%nat cs')))
              <$> down (run is_word s')) as Honce.
  { intros s' cs'. unfold once.
    change (clear [1%nat] (State s' cs')) with (State s' (delete 1%nat cs')).
    rewrite rmatch_group_plus_class.
    by rewrite (run_ext (class_matches [AWord]) is_word)
      by (intros c; cbn; apply orb_false_r). }
  destruct (run is_word s) as [|m] eqn:Hm; [done|].
  cbn [down]. rewrite bind_cons. cbn [compose].
  assert (repeat_greedy (length (rest (mk (S m)))) once (mk (S m)) = [mk (S m)])
    as ->.
  { apply repeat_greedy_once_nil. unfold mk. rewrite Honce.
    by rewrite <-Hm, run_stop. }
  rewrite bind_singleton.
  change (State (drop (S m) s) _) with (mk (S m)).
  destruct (rmatch n R1 (mk (S m))) as [|y ys] eqn:HF; [|done].
  cbn [app]. apply head_None_nil, down_bind_nil. intros k Hk. cbn [compose].
  apply list_bind_nil. intros z Hz.
  apply (repeat_greedy_inv_from
           (λ z, ∃ j, (j ≤ S m)%nat ∧ rest z = drop j s)) in Hz.
  - destruct Hz as (j & Hj & Hrest). destruct z as [sz cz]. cbn in Hrest. subst sz.
    destruct (decide (j = S m)) as [->|Hne].
    + apply head_None_nil. apply head_None_nil in HF.
      unfold mk in HF. rewrite rmatch_R1_head in HF. rewrite rmatch_R1_head.
      by destruct (scan_tail (drop (S m) s)) as [[[??]?]|].
    + destruct (run_next is_word s j) as (c & s' & -> & Hc); [lia|].
      by rewrite rmatch_R1, (run_0_cons _ _ _ (is_word_not_space c Hc)).
  - intros [sx cx] y' (j & Hj & Hrest) Hy'. cbn in Hrest. subst sx.
    rewrite Honce in Hy'.
    apply list_elem_of_fmap in Hy' as (i & -> & Hi%elem_of_down).
    rewrite run_drop in Hi by lia. exists (j + i)%nat. cbn [rest].
    split; [lia|]. by rewrite drop_drop.
  - exists k. split; [lia|done].
Qed.

(** At the start of the input [MAP_regex] matches as [scan] reads, and the
    first match sets the three groups to what [scan] found. *)
Lemma rmatch_MAP_regex_head s :
  head (rmatch (length s) MAP_regex (State s ∅))
  = match run is_word s with
    | O => None
    | S _ as m =>
        (λ '(d, c, r),
           State r (<[3%nat := c]> (<[2%nat := d]> (<[1%nat := take m s]> ∅))))
        <$> scan_tail (drop m s)
    end.
Proof.
  rewrite MAP_regex_R0, rmatch_Cat. cbn [rmatch rest].
  rewrite Nat.eqb_refl, bind_singleton, rmatch_R0_head.
  destruct (run is_word s) as [|m]; [done|].
  by rewrite rmatch_R1_head, delete_empty.
Qed.

End ScanFacts.

Import ScanFacts.

Lemma parsed_scan_eq (info : jsstring) : parsed info = scan info.
Proof.
  unfold parsed, js_match. change (ngroups MAP_regex) with 3%nat.
  pose proof (rmatch_MAP_regex_head info) as Hhead.
  unfold scan, span.
  assert (exec_from MAP_regex 3 (length info) info
          = match rmatch (length info) MAP_regex (State info ∅) with
            | y :: _ =>
                Some [Some (take (length info - length (rest y)) info);
                      caps y !! 1%nat; caps y !! 2%nat; caps y !! 3%nat]
            | [] => None
            end) as ->.
  { destruct info as [|c s]; cbn [exec_from];
      destruct (rmatch _ MAP_regex _) as [|y ys]; try done.
    apply exec_from_MAP_regex_not_start. simpl. lia. }
  destruct (rmatch _ MAP_regex _) as [|y ys].
  - destruct (run is_word info) as [|m] eqn:Hm; [by destruct info|].
    destruct (take_run_cons _ _ _ Hm) as (c & a & ->).
    cbv zeta in Hhead. by destruct (scan_tail (drop (S m) info)) as [[[d k] r]|].
  - destruct (run is_word info) as [|m] eqn:Hm; [done|].
    destruct (take_run_cons _ _ _ Hm) as (c & a & Ha). rewrite Ha.
    cbv zeta in Hhead.
    destruct (scan_tail (drop (S m) info)) as [[[d k] r]|]; [|done].
    injection Hhead as ->. cbn [caps fmap option_fmap option_map].
    rewrite lookup_insert_ne, lookup_insert_ne, lookup_insert_eq by done.
    rewrite lookup_insert_ne, lookup_insert_eq by done.
    rewrite lookup_insert_eq. by rewrite Ha.
Qed.

Lemma span_app p a b :
  Forall (λ c, p c = true) a → run p b = 0%nat → span p (a ++ b) = (a, b).
Proof.
  intros Ha Hb. unfold span. rewrite run_app, Hb, Nat.add_0_r by done.
  by rewrite take_app_length, drop_app_length.
Qed.

Lemma span_spec p s a b :
  span p s = (a, b) →
  s = a ++ b ∧ Forall (λ c, p c = true) a ∧ run p b = 0%nat.
Proof.
  unfold span. intros [= <- <-]. split_and!.
  - by rewrite take_drop.
  - apply run_Forall.
  - apply run_stop.
Qed.

Lemma scan_tail_Some s d c r :
  scan_tail s = Some (d, c, r) ↔
  ∃ sp, s = sp ++ d ++ chr "." :: c ++ r ∧
        (sp ≠ [] ∧ Forall (λ x, is_space x = true) sp) ∧
        (d ≠ [] ∧ Forall (λ x, is_dbchar x = true) d) ∧
        (c ≠ [] ∧ Forall (λ x, is_collchar x = true) c) ∧
        run is_collchar r = 0%nat.
Proof.
  unfold scan_tail. split.
  - destruct (span is_space s) as [sp s2] eqn:H1.
    destruct (span is_dbchar s2) as [d' s3] eqn:H2.
    destruct sp as [|x sp]; [done|]. destruct d' as [|y d']; [done|].
    destruct s3 as [|dot s4]; [done|].
    destruct (span is_collchar s4) as [c' s5] eqn:H3.
    destruct c' as [|z c']; [done|].
    destruct (dot =? chr ".")%N eqn:Hdot; [|done].
    apply N.eqb_eq in Hdot as ->. intros [= <- <- <-].
    apply span_spec in H1 as (-> & ? & _), H2 as (-> & ? & _), H3 as (-> & ? & ?).
    exists (x :: sp). by split_and!.
  - intros (sp & -> & [Hsp Fsp] & [Hd Fd] & [Hc Fc] & Hr).
    destruct d as [|y d]; [done|]. destruct sp as [|x sp]; [done|].
    destruct c as [|z c]; [done|].
    rewrite (span_app is_space (x :: sp)); [|done|].
    2:{ apply run_0_cons. apply Forall_cons_1 in Fd as [Hy _].
        destruct (is_space y) eqn:Hs; [|done].
        apply is_space_not_dbchar in Hs. congruence. }
    rewrite (span_app is_dbchar (y :: d)); [|done|].
    2:{ by apply run_0_cons. }
    rewrite (span_app is_collchar (z :: c)) by done.
    by rewrite N.eqb_refl.
Qed.

Lemma parsed_shape (info t d c : jsstring) :
  parsed info = Some (t, d, c) ↔ ∃ sp r, namespace_shape info t sp d c r.
Proof.
  rewrite parsed_scan_eq. unfold scan, namespace_shape. split.
  - destruct (span is_word info) as [t' s1] eqn:H1.
    destruct t' as [|x t']; [done|].
    destruct (scan_tail s1) as [[[d' c'] r]|] eqn:H2; [|done].
    intros [= <- <- <-]. apply span_spec in H1 as (-> & ? & _).
    apply scan_tail_Some in H2 as (sp & -> & ?). exists sp, r.
    split; [done|]. split; [by split|done].
  - intros (sp & r & -> & [Ht Ft] & Hrest).
    destruct t as [|x t]; [done|].
    assert (scan_tail (sp ++ d ++ chr "." :: c ++ r) = Some (d, c, r)) as Htail.
    { apply scan_tail_Some. by exists sp. }
    rewrite (span_app is_word (x :: t)); [by rewrite Htail|done|].
    destruct Hrest as ([Hsp Fsp] & _). destruct sp as [|y sp]; [done|].
    apply run_0_cons. apply Forall_cons_1 in Fsp as [Hy _].
    by apply is_space_not_word.
Qed.

(** X1: the regular expression of [MAP], with all its backtracking, reads
    [info] as one pass from left to right does, in which the verb, the
    spaces, the database and the collection are each as long as they can
    be. *)
Theorem MAP_scan (this : entry) :
  MAP this =
  match scan (info this) with
  | Some (type, database, collection) =>
      if bool_decide (collection ≠ lit "$cmd")
         && bool_decide (database ≠ lit "tmp")
         && bool_decide (database ≠ lit "system")
      then [(Key collection type, Value 1)]
      else []
  | None => []
  end.
Proof. by rewrite MAP_parsed, parsed_scan_eq. Qed.

(** X2: [MAP] reads a verb, a database and a collection off the strings
    of the shape verb, spaces, database, dot, collection, rest, and off no
    others. *)
Theorem parsed_iff (info t d c : jsstring) :
  parsed info = Some (t, d, c) ↔ ∃ sp r, namespace_shape info t sp d c r.
Proof. apply parsed_shape. Qed.

Lemma ExtractKey_parsed_eq e1 e2 :
  parsed (info e1) = parsed (info e2) → ExtractKey e1 = ExtractKey e2.
Proof. intros Heq. by rewrite !ExtractKey_parsed, Heq. Qed.

Lemma run_0_app p r w tail :
  run p r = 0%nat → p w = false → run p (r ++ w :: tail) = 0%nat.
Proof.
  intros Hr Hw. destruct r as [|x r]; simpl in *; [by rewrite Hw|].
  by destruct (p x).
Qed.

(** X3: once [info] has a verb and a namespace, text added after it is
    ignored, provided it starts with a character that cannot continue the
    collection (a space or a colon, say). *)
Theorem ExtractKey_trailing_text (text tail : jsstring) (w : N)
    (x : jsstring * jsstring * jsstring) :
  parsed text = Some x → is_collchar w = false →
  parsed (text ++ w :: tail) = Some x ∧
  ExtractKey (Entry (text ++ w :: tail)) = ExtractKey (Entry text).
Proof.
  intros Hp Hw.
  assert (parsed (text ++ w :: tail) = Some x) as Hp'.
  { destruct x as [[t d] c].
    apply parsed_shape in Hp as (sp & r & -> & Ht & Hsp & Hd & Hc & Hr).
    apply parsed_shape. exists sp, (r ++ w :: tail).
    refine (conj _ (conj Ht (conj Hsp (conj Hd (conj Hc _))))).
    - by rewrite <-!app_assoc, <-app_comm_cons, <-!app_assoc.
    - by apply run_0_app. }
  split; [done|]. apply ExtractKey_parsed_eq.
  change (parsed (text ++ w :: tail) = parsed text). by rewrite Hp, Hp'.
Qed.

Lemma ExtractKey_trailing_text_witness :
  parsed (lit "query test.foo") = Some (lit "query", lit "test", lit "foo") ∧
  is_collchar (chr " ") = false ∧
  (parsed (lit "query test.foo" ++ chr " " :: lit "ntoreturn:0")
   = Some (lit "query", lit "test", lit "foo") ∧
   ExtractKey (Entry (lit "query test.foo" ++ chr " " :: lit "ntoreturn:0"))
   = ExtractKey (Entry (lit "query test.foo"))).
Proof.
  assert (parsed (lit "query test.foo") = Some (lit "query", lit "test", lit "foo"))
    as Hp by (vm_compute; reflexivity).
  assert (is_collchar (chr " ") = false) as Hw by reflexivity.
  split; [exact Hp|]. split; [exact Hw|].
  exact (ExtractKey_trailing_text (lit "query test.foo") (lit "ntoreturn:0")
           (chr " ") _ Hp Hw).
Defined.

(** X4: what [MAP] emits.  At most one pair for a document, with the count
    1; the verb of its key starts [info] and is made of word characters;
    the collection is made of word characters, hyphens, dots and dollars,
    and is not [$cmd]; neither is empty. *)
Theorem MAP_emitted_key (e : entry) (k : key) (v : mr_value) :
  (k, v) ∈ MAP e →
  MAP e = [(k, Value 1)] ∧ v = Value 1 ∧
  (type k ≠ [] ∧ type k `prefix_of` info e
   ∧ Forall (λ x, is_word x = true) (type k)) ∧
  (collection k ≠ [] ∧ collection k ≠ lit "$cmd"
   ∧ Forall (λ x, is_collchar x = true) (collection k)).
Proof.
  rewrite MAP_parsed.
  destruct (parsed (info e)) as [[[t d] c]|] eqn:Hp; [|by intros ?%elem_of_nil].
  destruct (bool_decide (c ≠ lit "$cmd")) eqn:Hcmd; cbn [andb];
    [|by intros ?%elem_of_nil].
  destruct (bool_decide (d ≠ lit "tmp") && bool_decide (d ≠ lit "system"));
    [|by intros ?%elem_of_nil].
  intros [= -> ->]%list_elem_of_singleton. cbn [type collection].
  apply bool_decide_eq_true in Hcmd.
  apply parsed_shape in Hp as (sp & r & Hinfo & [Ht Ft] & _ & _ & [Hc Fc] & _).
  split_and!; try done. rewrite Hinfo. by eexists.
Qed.

Lemma MAP_emitted_key_witness :
  let e := Entry (lit "query test.foo.bar ntoreturn:0") in
  let k := Key (lit "foo.bar") (lit "query") in
  (k, Value 1) ∈ MAP e ∧
  (MAP e = [(k, Value 1)] ∧ Value 1 = Value 1 ∧
   (type k ≠ [] ∧ type k `prefix_of` info e
    ∧ Forall (λ x, is_word x = true) (type k)) ∧
   (collection k ≠ [] ∧ collection k ≠ lit "$cmd"
    ∧ Forall (λ x, is_collchar x = true) (collection k))).
Proof.
  intros e k.
  assert ((k, Value 1) ∈ MAP e) as Hin.
  { replace (MAP e) with [(k, Value 1)] by (vm_compute; reflexivity). left. }
  split; [exact Hin|]. exact (MAP_emitted_key e k (Value 1) Hin).
Defined.

(** ** REDUCE *)


(** ** parse_results, continued *)

(** X6: the dict that [parse_results] returns.  A collection is a key
    exactly when a document names it; its dict is never empty, and holds
    for each type the sum of the values of the documents of that
    collection and type, and nothing for a type without documents. *)
Theorem parse_results_inner (docs : list mr_doc) (c : jsstring) :
  (parse_results docs !! c = None ↔ ∀ d, d ∈ docs → collection (_id d) ≠ c) ∧
  ∀ inner,
    parse_results docs !! c = Some inner →
    inner ≠ ∅ ∧
    ∀ t, inner !! t = if decide (Key c t ∈ _id <$> docs)
                      then Some (total (Key c t) docs) else None.
Proof.
  split.
  - rewrite <-not_elem_of_dom, parse_results_dom. split.
    + intros Hno d Hd Heq. apply Hno. exists (type (_id d)).
      apply list_elem_of_fmap. exists d. split; [|done].
      destruct d as [[c' t] v]. cbn in *. by subst.
    + intros Hno [t ([[c' t'] v] & [= <- <-] & Hd)%list_elem_of_fmap].
      by apply (Hno _ Hd).
  - intros inner Hc. split; [by apply (parse_results_nonempty docs c)|].
    intros t. rewrite <-parse_results_lookup2. unfold lookup2. by rewrite Hc.
Qed.

Lemma parse_results_eq_lookup2 docs1 docs2 :
  parse_results docs1 = parse_results docs2 ↔
  ∀ c t, lookup2 (parse_results docs1) c t = lookup2 (parse_results docs2) c t.
Proof.
  split; [by intros ->|]. apply lookup2_ext; apply parse_results_nonempty.
Qed.

(** X7: [parse_results] depends on the documents only through their keys
    and the sum of the values of each key: two lists give the same dict
    exactly when they have the same keys and, key by key, the same sum.  So
    neither the order of the documents nor the splitting of a value over
    several documents of one key matters. *)
Theorem parse_results_eq_iff (docs1 docs2 : list mr_doc) :
  parse_results docs1 = parse_results docs2 ↔
  ∀ k, (k ∈ _id <$> docs1 ↔ k ∈ _id <$> docs2) ∧
       (k ∈ _id <$> docs1 → total k docs1 = total k docs2).
Proof.
  rewrite parse_results_eq_lookup2. split.
  - intros Heq [c t]. specialize (Heq c t). rewrite !parse_results_lookup2 in Heq.
    repeat case_decide; naive_solver.
  - intros Heq c t. rewrite !parse_results_lookup2.
    destruct (Heq (Key c t)) as [Hk Ht].
    repeat case_decide; try done; [|tauto..]. f_equal. auto.
Qed.

Module TotalFacts.

Lemma inner_total_insert_None (inner : gmap jsstring Z) t n :
  inner !! t = None → inner_total (<[t := n]> inner) = n + inner_total inner.
Proof.
  intros Ht. unfold inner_total. rewrite map_fold_insert_L; [done| |done].
  intros. lia.
Qed.

Lemma inner_total_insert_Some (inner : gmap jsstring Z) t old n :
  inner !! t = Some old →
  inner_total (<[t := n]> inner) = n - old + inner_total inner.
Proof.
  intros Ht. rewrite <-insert_delete_eq.
  rewrite inner_total_insert_None by apply lookup_delete_eq.
  unfold inner_total at 2.
  rewrite (map_fold_delete_L _ _ t old inner); [fold (inner_total (delete t inner)); lia| |done].
  intros. lia.
Qed.

Lemma grand_total_insert_None (counts : gmap jsstring (gmap jsstring Z)) c inner :
  counts !! c = None →
  grand_total (<[c := inner]> counts) = inner_total inner + grand_total counts.
Proof.
  intros Hc. unfold grand_total. rewrite map_fold_insert_L; [done| |done].
  intros. lia.
Qed.

Lemma grand_total_insert_Some (counts : gmap jsstring (gmap jsstring Z)) c old inner :
  counts !! c = Some old →
  grand_total (<[c := inner]> counts)
  = inner_total inner - inner_total old + grand_total counts.
Proof.
  intros Hc. rewrite <-insert_delete_eq.
  rewrite grand_total_insert_None by apply lookup_delete_eq.
  unfold grand_total at 2.
  rewrite (map_fold_delete_L _ _ c old counts);
    [fold (grand_total (delete c counts)); lia| |done].
  intros. lia.
Qed.

Lemma inner_total_singleton t n : inner_total {[t := n]} = n.
Proof.
  unfold inner_total. rewrite map_fold_singleton. lia.
Qed.

Lemma parse_step_new counts c t n :
  counts !! c = None →
  parse_step counts (Doc (Key c t) (Value n)) = <[c := {[t := n]}]> counts.
Proof. intros Hc. unfold parse_step, setdefault. cbn. by rewrite !Hc. Qed.

Lemma parse_step_new_type counts c t n inner :
  counts !! c = Some inner → inner !! t = None →
  parse_step counts (Doc (Key c t) (Value n)) = <[c := <[t := n]> inner]> counts.
Proof. intros Hc Ht. unfold parse_step, setdefault. cbn. by rewrite !Hc, !Ht. Qed.

Lemma parse_step_add counts c t n inner old :
  counts !! c = Some inner → inner !! t = Some old →
  parse_step counts (Doc (Key c t) (Value n))
  = <[c := <[t := old + n]> inner]> counts.
Proof. intros Hc Ht. unfold parse_step, setdefault. cbn. by rewrite !Hc, !Ht. Qed.

Lemma grand_total_parse_step counts d :
  grand_total (parse_step counts d) = grand_total counts + count (value d).
Proof.
  destruct d as [[c t] [n]]. cbn [count value].
  destruct (counts !! c) as [inner|] eqn:Hc.
  - destruct (inner !! t) as [old|] eqn:Ht.
    + rewrite (parse_step_add _ _ _ _ inner old) by done.
      rewrite (grand_total_insert_Some _ _ inner) by done.
      rewrite (inner_total_insert_Some _ _ old) by done. lia.
    + rewrite (parse_step_new_type _ _ _ _ inner) by done.
      rewrite (grand_total_insert_Some _ _ inner) by done.
      rewrite inner_total_insert_None by done. lia.
  - rewrite parse_step_new by done.
    rewrite grand_total_insert_None, inner_total_singleton by done. lia.
Qed.

Lemma grand_total_foldl docs counts :
  grand_total (foldl parse_step counts docs)
  = grand_total counts + Zsum (count ∘ value <$> docs).
Proof.
  revert counts. induction docs as [|d docs IH]; intros counts; cbn [foldl].
  - change (Zsum _) with 0. lia.
  - rewrite IH, grand_total_parse_step, fmap_cons.
    change (Zsum (?x :: ?l)) with (x + Zsum l). cbn [compose]. lia.
Qed.

Lemma grand_total_parse_results docs :
  grand_total (parse_results docs) = Zsum (count ∘ value <$> docs).
Proof.
  unfold parse_results. rewrite grand_total_foldl.
  unfold grand_total. rewrite map_fold_empty. lia.
Qed.

End TotalFacts.

(** X8: [parse_results] loses nothing and adds nothing: the counts of the
    dict add up to the sum of the values of the documents. *)
Theorem parse_results_total (docs : list mr_doc) :
  grand_total (parse_results docs) = Zsum (count ∘ value <$> docs).
Proof.
  unfold parse_results. rewrite TotalFacts.grand_total_foldl.
  unfold grand_total at 1. rewrite map_fold_empty. lia.
Qed.

(** ** print_table, continued *)

Module TableFacts.

Lemma py_float_Raise z e : py_float z = Raise e → e = OverflowError.
Proof. unfold py_float. destruct (is_infinity _); congruence. Qed.

Lemma py_div_Raise x norm e :
  py_div x norm = Raise e →
  e = OverflowError ∨ (e = ZeroDivisionError ∧ (norm =? 0)%float = true).
Proof.
  unfold py_div. destruct (py_float x) as [a|e'] eqn:Hx; cbn.
  - destruct (norm =? 0)%float; [|done]. intros [= <-]. by right.
  - intros [= <-]. left. by apply py_float_Raise in Hx.
Qed.

Lemma print_table_row_cases (norm : float) (table : Texttable)
    (col : jsstring) (v : gmap jsstring Z) :
  (∃ row, is_row_of col row ∧
          print_table_row norm table (col, v) = Ok (add_row table row)) ∨
  (∃ e, print_table_row norm table (col, v) = Raise e ∧
        (e = OverflowError ∨
         (e = ZeroDivisionError ∧ (norm =? 0)%float = true))).
Proof.
  rewrite print_table_row_spec.
  destruct (py_div (default 0 (v !! lit "query")) norm) as [q|e] eqn:Hq;
    [|right; exists e; split; [done|by apply py_div_Raise in Hq]].
  destruct (py_div (default 0 (v !! lit "insert")) norm) as [i|e] eqn:Hi;
    [|right; exists e; split; [done|by apply py_div_Raise in Hi]].
  destruct (py_div (default 0 (v !! lit "getmore")) norm) as [g|e] eqn:Hg;
    [|right; exists e; split; [done|by apply py_div_Raise in Hg]].
  destruct (py_div (default 0 (v !! lit "update")) norm) as [u|e] eqn:Hu;
    [|right; exists e; split; [done|by apply py_div_Raise in Hu]].
  destruct (py_div (default 0 (v !! lit "remove")) norm) as [r|e] eqn:Hr;
    [|right; exists e; split; [done|by apply py_div_Raise in Hr]].
  left. eexists. split; [|done]. by exists q, i, g, u, r.
Qed.

Lemma for_each_print_table_row_cases (norm : float) items (table : Texttable) :
  (∃ rows', Forall2 (λ row item, is_row_of item.1 row) rows' items ∧
            for_each (print_table_row norm) items table
            = Ok (Table (header table) (rows table ++ rows'))) ∨
  (∃ e, for_each (print_table_row norm) items table = Raise e ∧
        items ≠ [] ∧
        (e = OverflowError ∨
         (e = ZeroDivisionError ∧ (norm =? 0)%float = true))).
Proof.
  revert table. induction items as [|[col v] items IH]; intros table; cbn [for_each].
  { left. exists []. split; [constructor|]. rewrite app_nil_r. by destruct table. }
  destruct (print_table_row_cases norm table col v)
    as [(row & Hrow & ->)|(e & -> & He)]; [|right; by exists e].
  cbn [mbind result_bind].
  destruct (IH (add_row table row)) as [(rows' & Hrows & ->)|(e & -> & _ & He)].
  - left. exists (row :: rows'). split; [by constructor|].
    unfold add_row. cbn [header rows]. by rewrite <-app_assoc.
  - right. by exists e.
Qed.

End TableFacts.

(** X9: the exceptions of [print_table].  It never raises KeyError, the
    five [setdefault] seeing to it; it raises ZeroDivisionError only when
    there is a collection and the interval converts to 0.0, which below
    2^53 only 0 does; all that is left is the OverflowError of [float]. *)
Theorem print_table_exceptions (data : list mr_doc) (time_interval : Z) (e : exn) :
  print_table data time_interval = Raise e →
  e = OverflowError ∨
  (e = ZeroDivisionError ∧ parse_results data ≠ ∅ ∧
   (float_of_Z time_interval =? 0)%float = true ∧
   (fits_double time_interval → time_interval = 0)).
Proof.
  unfold print_table.
  destruct (py_float time_interval) as [norm|e'] eqn:Hnorm; cbn [mbind result_bind].
  2:{ intros [= <-]. left. by apply TableFacts.py_float_Raise in Hnorm. }
  assert (norm = float_of_Z time_interval) as ->.
  { unfold py_float in Hnorm. destruct (is_infinity _); congruence. }
  destruct (TableFacts.for_each_print_table_row_cases
              (float_of_Z time_interval) (map_to_list (parse_results data))
              (Table [lit "collection"; lit "queries/sec"; lit "inserts/sec";
                      lit "getmores/sec"; lit "updates/sec"; lit "removes/sec"] []))
    as [(rows' & _ & ->)|(e' & -> & Hne & He)]; [done|].
  intros [= <-]. destruct He as [->|[-> Hz]]; [by left|right].
  split_and!; try done.
  - intros Hm. apply Hne. by rewrite Hm, map_to_list_empty.
  - intros Hfit. by apply (FloatFacts.float_of_Z_fits _ Hfit).
Qed.

Lemma print_table_exceptions_witness :
  let data := [Doc (Key (lit "foo") (lit "query")) (Value 10)] in
  print_table data 0 = Raise ZeroDivisionError ∧
  (ZeroDivisionError = OverflowError ∨
   (ZeroDivisionError = ZeroDivisionError ∧ parse_results data ≠ ∅ ∧
    (float_of_Z 0 =? 0)%float = true ∧ (fits_double 0 → 0 = 0))).
Proof.
  intros data.
  assert (print_table data 0 = Raise ZeroDivisionError) as H
    by (vm_compute; reflexivity).
  split; [exact H|]. exact (print_table_exceptions data 0 ZeroDivisionError H).
Defined.



(** ** Aggregate, continued *)

Module AggregateFacts.

Lemma total_unreduced k (es : list (key * mr_value)) :
  total k ((λ kv, Doc kv.1 kv.2) <$> es) = Zsum (count <$> values_of k es).
Proof.
  induction es as [|[k' v] es IH]; [done|].
  rewrite fmap_cons, total_cons. unfold values_of. rewrite filter_cons.
  cbn [fst snd _id value]. fold (values_of k es).
  case_decide; [|done]. rewrite fmap_cons, fmap_cons.
  change (Zsum (?x :: ?l)) with (x + Zsum l). cbn [snd]. by rewrite IH.
Qed.

Lemma unreduced_ids entries : _id <$> unreduced entries = (emits MAP entries).*1.
Proof. unfold unreduced. by rewrite <-list_fmap_compose. Qed.

Lemma occurrences_0 entries c t :
  occurrences entries c t = 0 ↔ Key c t ∉ (emits MAP entries).*1.
Proof.
  rewrite elem_of_emits_MAP. unfold occurrences.
  destruct (filter _ entries) as [|e l] eqn:Hf.
  - split; [|done]. intros _ (e & He & Hk).
    assert (e ∈ filter (λ e, ExtractKey e = Some (c, t)) entries) as Hin
      by by apply list_elem_of_filter.
    rewrite Hf in Hin. by apply elem_of_nil in Hin.
  - split; [simpl; lia|]. intros Hno. exfalso. apply Hno.
    assert (e ∈ filter (λ e, ExtractKey e = Some (c, t)) entries) as Hin
      by (rewrite Hf; left).
    apply list_elem_of_filter in Hin as [Hk He]. eauto.
Qed.

Lemma lookup2_unreduced entries c t :
  lookup2 (parse_results (unreduced entries)) c t =
  if decide (occurrences entries c t = 0) then None
  else Some (occurrences entries c t).
Proof.
  rewrite parse_results_lookup2, unreduced_ids.
  unfold unreduced. rewrite total_unreduced, values_of_emits_MAP.
  pose proof (occurrences_0 entries c t).
  repeat case_decide; try done; tauto.
Qed.

Lemma occurrences_app entries1 entries2 c t :
  occurrences (entries1 ++ entries2) c t
  = occurrences entries1 c t + occurrences entries2 c t.
Proof. unfold occurrences. rewrite filter_app, length_app. lia. Qed.

Lemma occurrences_bounds entries c t :
  0 ≤ occurrences entries c t ≤ Z.of_nat (length entries).
Proof.
  unfold occurrences.
  pose proof (length_filter (λ e, ExtractKey e = Some (c, t)) entries). lia.
Qed.

Lemma occurrences_discarded e c t :
  ExtractKey e = None → occurrences [e] c t = 0.
Proof.
  intros He. unfold occurrences. rewrite filter_cons_False; [done|]. congruence.
Qed.

Lemma Zsum_emits_MAP entries :
  Zsum (count ∘ value <$> unreduced entries)
  = Z.of_nat (length (filter (λ e, is_Some (ExtractKey e)) entries)).
Proof.
  unfold unreduced, emits.
  induction entries as [|e entries IH]; [done|].
  rewrite bind_cons, fmap_app, fmap_app, Zsum_app, IH, filter_cons.
  rewrite MAP_ExtractKey.
  destruct (ExtractKey e) as [[c t]|] eqn:He.
  - rewrite decide_True by done. change (Zsum _) with 1. cbn [length]. lia.
  - rewrite decide_False by (by intros [??]). done.
Qed.

Lemma parse_results_output_unreduced entries docs :
  map_reduce_output MAP REDUCE entries docs →
  parse_results docs = parse_results (unreduced entries).
Proof.
  intros Hout. apply parse_results_eq_lookup2. intros c t.
  by rewrite (parse_results_output_count entries docs c t Hout),
    lookup2_unreduced.
Qed.

End AggregateFacts.

(** X11: the counts.  Whatever the map/reduce output, the count of a
    collection and a type is the number of entries that [MAP] counts under
    them, so at least 1 and at most the number of entries; a pair that no
    entry has is absent. *)
Theorem Aggregate_counts (entries : list entry) (docs : list mr_doc)
    (c t : jsstring) :
  map_reduce_output MAP REDUCE entries docs →
  lookup2 (parse_results docs) c t =
    (if decide (occurrences entries c t = 0) then None
     else Some (occurrences entries c t)) ∧
  ∀ n, lookup2 (parse_results docs) c t = Some n →
       1 ≤ n ≤ Z.of_nat (length entries).
Proof.
  intros Hout. rewrite (parse_results_output_count entries docs c t Hout).
  split; [done|]. intros n.
  pose proof (AggregateFacts.occurrences_bounds entries c t).
  case_decide; [done|]. intros [= <-]. lia.
Qed.

(** X12: [REDUCE] is only a shortcut.  Given one document for every
    [emit], not reduced at all, [parse_results] does the sums itself and
    returns what it returns for the output of the map/reduce. *)
Theorem parse_results_unreduced (entries : list entry) (docs : list mr_doc) :
  map_reduce_output MAP REDUCE entries docs →
  parse_results docs = parse_results (unreduced entries).
Proof.
  intros Hout. apply parse_results_eq_lookup2. intros c t.
  rewrite (parse_results_output_count entries docs c t Hout).
  by rewrite AggregateFacts.lookup2_unreduced.
Qed.

(** X13: batches add up.  The count of a collection and a type over two
    batches of entries together is the sum of its counts over each, an
    absent count being 0. *)
Theorem Aggregate_app (entries1 entries2 : list entry) (c t : jsstring) :
  default 0 (lookup2 (Aggregate (entries1 ++ entries2)) c t)
  = default 0 (lookup2 (Aggregate entries1) c t)
    + default 0 (lookup2 (Aggregate entries2) c t).
Proof.
  rewrite !Aggregate_count, AggregateFacts.occurrences_app.
  repeat case_decide; cbn [default from_option id]; lia.
Qed.

(** X14: an entry that [MAP] does not count (no match, [$cmd], [tmp],
    [system]) changes nothing, wherever it stands. *)
Theorem Aggregate_discarded (entries1 entries2 : list entry) (e : entry)
    (docs docs' : list mr_doc) :
  ExtractKey e = None →
  map_reduce_output MAP REDUCE (entries1 ++ e :: entries2) docs →
  map_reduce_output MAP REDUCE (entries1 ++ entries2) docs' →
  parse_results docs = parse_results docs'.
Proof.
  intros He Hout Hout'. apply parse_results_eq_lookup2. intros c t.
  rewrite (parse_results_output_count _ docs c t Hout).
  rewrite (parse_results_output_count _ docs' c t Hout').
  rewrite (AggregateFacts.occurrences_app entries1 (e :: entries2)).
  change (e :: entries2) with ([e] ++ entries2).
  rewrite (AggregateFacts.occurrences_app [e] entries2).
  rewrite (AggregateFacts.occurrences_discarded e c t He).
  rewrite (AggregateFacts.occurrences_app entries1 entries2).
  by rewrite Z.add_0_l.
Qed.

(** X15: every counted entry is counted once.  The counts of the result
    add up to the number of entries that [MAP] counts. *)
Theorem Aggregate_total (entries : list entry) (docs : list mr_doc) :
  map_reduce_output MAP REDUCE entries docs →
  grand_total (parse_results docs)
  = Z.of_nat (length (filter (λ e, is_Some (ExtractKey e)) entries)).
Proof.
  intros Hout.
  rewrite (AggregateFacts.parse_results_output_unreduced entries docs Hout).
  by rewrite TotalFacts.grand_total_parse_results, AggregateFacts.Zsum_emits_MAP.
Qed.

(** X16: the last two statements of the script cannot fail.  For fewer
    than 2^53 entries and an interval between 0 and 2^53, [print_table]
    applied to the output of the map/reduce returns the table, with the
    row of [ToRates_row] for every collection, and every count in it is at
    least 1. *)
Theorem print_table_map_reduce (entries : list entry) (docs : list mr_doc)
    (time_interval : Z) :
  map_reduce_output MAP REDUCE entries docs →
  Z.of_nat (length entries) < 2 ^ 53 →
  0 < time_interval < 2 ^ 53 →
  print_table docs time_interval
  = Ok (Table table_header
          (ToRates_row (float_of_Z time_interval)
           <$> map_to_list (parse_results docs)))
  ∧ counts_fit (parse_results docs).
Proof.
  intros Hout Hlen Ht.
  assert (counts_fit (parse_results docs)) as Hfit.
  { intros c inner Hc t n Hn. apply fits_double_finite.
    pose proof (parse_results_output_count entries docs c t Hout) as Hl.
    unfold lookup2 in Hl. rewrite Hc in Hl. cbn in Hl. rewrite Hn in Hl.
    pose proof (AggregateFacts.occurrences_bounds entries c t).
    case_decide; [done|]. injection Hl as ->. unfold fits_double. lia. }
  split; [|done]. apply print_table_fits; [unfold fits_double; lia|lia|done].
Qed.

Lemma print_table_map_reduce_witness :
  let entries := [Entry (lit "query test.foo"); Entry (lit "insert test.foo");
                  Entry (lit "query test.foo"); Entry (lit "update tmp.x")] in
  let docs := inline_map_reduce MAP REDUCE entries in
  map_reduce_output MAP REDUCE entries docs ∧
  Z.of_nat (length entries) < 2 ^ 53 ∧
  0 < 5 < 2 ^ 53 ∧
  (print_table docs 5
   = Ok (Table table_header
           (ToRates_row (float_of_Z 5) <$> map_to_list (parse_results docs)))
   ∧ counts_fit (parse_results docs)).
Proof.
  intros entries docs.
  assert (map_reduce_output MAP REDUCE entries docs) as Hout
    by apply inline_map_reduce_output.
  assert (Z.of_nat (length entries) < 2 ^ 53) as Hlen by reflexivity.
  assert (0 < 5 < 2 ^ 53) as Ht by (split; reflexivity).
  split; [exact Hout|]. split; [exact Hlen|]. split; [exact Ht|].
  exact (print_table_map_reduce entries docs 5 Hout Hlen Ht).
Defined.

Lemma Aggregate_counts_witness :
  let entries := [Entry (lit "query test.foo"); Entry (lit "insert test.foo");
                  Entry (lit "query test.foo"); Entry (lit "update tmp.x")] in
  let docs := inline_map_reduce MAP REDUCE entries in
  map_reduce_output MAP REDUCE entries docs ∧
  (lookup2 (parse_results docs) (lit "foo") (lit "query") =
     (if decide (occurrences entries (lit "foo") (lit "query") = 0) then None
      else Some (occurrences entries (lit "foo") (lit "query"))) ∧
   ∀ n, lookup2 (parse_results docs) (lit "foo") (lit "query") = Some n →
        1 ≤ n ≤ Z.of_nat (length entries)).
Proof.
  intros entries docs.
  assert (map_reduce_output MAP REDUCE entries docs) as Hout
    by apply inline_map_reduce_output.
  split; [exact Hout|].
  exact (Aggregate_counts entries docs (lit "foo") (lit "query") Hout).
Defined.

Lemma parse_results_unreduced_witness :
  let entries := [Entry (lit "query test.foo"); Entry (lit "insert test.foo");
                  Entry (lit "query test.foo"); Entry (lit "update tmp.x")] in
  let docs := inline_map_reduce MAP REDUCE entries in
  map_reduce_output MAP REDUCE entries docs ∧
  parse_results docs = parse_results (unreduced entries).
Proof.
  intros entries docs.
  assert (map_reduce_output MAP REDUCE entries docs) as Hout
    by apply inline_map_reduce_output.
  split; [exact Hout|]. exact (parse_results_unreduced entries docs Hout).
Defined.

Lemma Aggregate_discarded_witness :
  let entries1 := [Entry (lit "query test.foo")] in
  let entries2 := [Entry (lit "insert test.foo")] in
  let e := Entry (lit "update tmp.x") in
  let docs := inline_map_reduce MAP REDUCE (entries1 ++ e :: entries2) in
  let docs' := inline_map_reduce MAP REDUCE (entries1 ++ entries2) in
  ExtractKey e = None ∧
  map_reduce_output MAP REDUCE (entries1 ++ e :: entries2) docs ∧
  map_reduce_output MAP REDUCE (entries1 ++ entries2) docs' ∧
  parse_results docs = parse_results docs'.
Proof.
  intros entries1 entries2 e docs docs'.
  assert (ExtractKey e = None) as He by (vm_compute; reflexivity).
  assert (map_reduce_output MAP REDUCE (entries1 ++ e :: entries2) docs) as Hout
    by apply inline_map_reduce_output.
  assert (map_reduce_output MAP REDUCE (entries1 ++ entries2) docs') as Hout'
    by apply inline_map_reduce_output.
  split; [exact He|]. split; [exact Hout|]. split; [exact Hout'|].
  exact (Aggregate_discarded entries1 entries2 e docs docs' He Hout Hout').
Defined.

Lemma Aggregate_total_witness :
  let entries := [Entry (lit "query test.foo"); Entry (lit "insert test.foo");
                  Entry (lit "query test.foo"); Entry (lit "update tmp.x")] in
  let docs := inline_map_reduce MAP REDUCE entries in
  map_reduce_output MAP REDUCE entries docs ∧
  grand_total (parse_results docs)
  = Z.of_nat (length (filter (λ e, is_Some (ExtractKey e)) entries)).
Proof.
  intros entries docs.
  assert (map_reduce_output MAP REDUCE entries docs) as Hout
    by apply inline_map_reduce_output.
  split; [exact Hout|]. exact (Aggregate_total entries docs Hout).
Defined.

Lemma parse_results_inner_witness :
  let docs := [Doc (Key (lit "foo") (lit "query")) (Value 2);
               Doc (Key (lit "foo") (lit "insert")) (Value 1);
               Doc (Key (lit "foo") (lit "query")) (Value 3)] in
  let inner : gmap jsstring Z := {[ lit "query" := 5; lit "insert" := 1 ]} in
  parse_results docs !! lit "foo" = Some inner ∧
  inner ≠ ∅ ∧
  ∀ t, inner !! t = if decide (Key (lit "foo") t ∈ _id <$> docs)
                    then Some (total (Key (lit "foo") t) docs) else None.
Proof.
  intros docs inner.
  assert (parse_results docs !! lit "foo" = Some inner) as Hc
    by (vm_compute; reflexivity).
  split; [exact Hc|].
  exact (proj2 (parse_results_inner docs (lit "foo")) inner Hc).
Defined.

